(** * LocalMesh: the peer session and the data-channel wire protocol

    A shallow embedding of [src/pages/LocalMesh.tsx].  The React component
    owns a peer connection, a data channel, the copy-paste signaling blobs,
    the chat log and the inbound file buffer.  Its handlers are embedded as
    computations over an explicit world: the hooks of the component, what
    the component observes of the transport, the events the transport will
    produce while a handler is suspended, the trace of effects performed,
    and the clock.

    Conventions.
    - Platform functions the component calls ([JSON.parse],
      [JSON.stringify], [String.prototype.trim]) are embedded as executable
      functions over strings of UTF-16 code units.
    - An [await] on a promise of the transport consumes the transport's
      events up to the one that settles the promise; a handler whose
      promise never settles ends as [Pending].
    - A binary frame reaches [onmessage] as an [ArrayBuffer] or as a
      [Blob], as the channel's [binaryType] has it; the component never
      sets [binaryType], and its handler only recognises an [ArrayBuffer].
    - The turns a handler gives to the scheduler between chunks are not
      points at which other handlers are interleaved. *)

From Stdlib Require Import String Ascii.
From Stdlib Require Import List NArith ZArith Bool Lia.
From Stdlib Require Init.Byte.
Import ListNotations.

Set Warnings "-register-all".

Local Open Scope N_scope.

(** ** JavaScript strings *)

Module JS.

(** A JavaScript string is a sequence of UTF-16 code units. *)
Definition jsstring := list N.

(** ASCII literals. *)
Definition js (s : string) : jsstring :=
  List.map N_of_ascii (list_ascii_of_string s).

(** ASCII literals in which an apostrophe stands for the double quote. *)
Definition jsq (s : string) : jsstring :=
  List.map (fun c => if c =? 39 then 34 else c) (js s).

Fixpoint str_eqb (a b : jsstring) : bool :=
  match a, b with
  | [], [] => true
  | x :: a', y :: b' => (x =? y) && str_eqb a' b'
  | _, _ => false
  end.

(** WhiteSpace and LineTerminator code points, as [trim] strips them. *)
Definition is_whitespace (c : N) : bool :=
  (c =? 0x9) || (c =? 0xA) || (c =? 0xB) || (c =? 0xC) || (c =? 0xD) ||
  (c =? 0x20) || (c =? 0xA0) || (c =? 0x1680) ||
  ((0x2000 <=? c) && (c <=? 0x200A)) ||
  (c =? 0x2028) || (c =? 0x2029) || (c =? 0x202F) || (c =? 0x205F) ||
  (c =? 0x3000) || (c =? 0xFEFF).

Fixpoint trim_start (s : jsstring) : jsstring :=
  match s with
  | c :: r => if is_whitespace c then trim_start r else s
  | [] => []
  end.

(** [s.trim()] *)
Definition trim (s : jsstring) : jsstring :=
  rev (trim_start (rev (trim_start s))).

(** Truthiness of a string: the empty string is the only falsy one. *)
Definition truthy (s : jsstring) : bool :=
  match s with [] => false | _ => true end.

Definition is_digit (c : N) : bool := (48 <=? c) && (c <=? 57).

(** Decimal digits of [n], most significant first, in front of [acc]. *)
Fixpoint dec_digits (fuel : nat) (n : N) (acc : jsstring) : jsstring :=
  match fuel with
  | O => acc
  | S f =>
      let acc' := (48 + n mod 10) :: acc in
      if n <? 10 then acc' else dec_digits f (n / 10) acc'
  end.

(** [String(n)] for a non-negative integer below 10^21. *)
Definition of_N (n : N) : jsstring :=
  dec_digits (S (N.to_nat (N.log2 n))) n [].

End JS.
Export JS.

(** ** JSON *)

Module JSON.

(** A number is kept as the exact decimal value [mantissa * 10^exponent] of
    its literal; rounding to binary64 is not modelled (the component never
    computes with a parsed number). *)
Inductive json : Type :=
| JNull
| JBool (b : bool)
| JNumber (mantissa exponent : Z)
| JString (s : jsstring)
| JArray (xs : list json)
| JObject (members : list (jsstring * json)).

Definition is_ws (c : N) : bool :=
  (c =? 0x20) || (c =? 0x9) || (c =? 0xA) || (c =? 0xD).

Fixpoint skip_ws (s : jsstring) : jsstring :=
  match s with
  | c :: r => if is_ws c then skip_ws r else s
  | [] => []
  end.

(** *** Numbers *)

Fixpoint parse_digits (s : jsstring) (acc : N) : N * jsstring :=
  match s with
  | c :: r => if is_digit c then parse_digits r (10 * acc + (c - 48)) else (acc, s)
  | [] => (acc, [])
  end.

Definition starts_with_digit (s : jsstring) : bool :=
  match s with c :: _ => is_digit c | [] => false end.

(** Integer part: a single 0, or a non-empty digit run. *)
Definition parse_int (s : jsstring) : option (N * jsstring) :=
  match s with
  | c :: r =>
      if c =? 48 then Some (0, r)
      else if is_digit c then Some (parse_digits s 0)
      else None
  | [] => None
  end.

(** Optional fraction: its digits as an integer and their count. *)
Definition parse_frac (s : jsstring) : option (N * nat * jsstring) :=
  match s with
  | c :: r =>
      if c =? 46 then
        if starts_with_digit r then
          let '(f, r') := parse_digits r 0 in
          Some (f, (List.length r - List.length r')%nat, r')
        else None
      else Some (0, O, s)
  | [] => Some (0, O, [])
  end.

(** An optional sign: [true] for a minus; a plus is taken when [plus]. *)
Definition parse_sign (plus : bool) (s : jsstring) : bool * jsstring :=
  match s with
  | c :: r =>
      if c =? 45 then (true, r)
      else if plus && (c =? 43) then (false, r)
      else (false, s)
  | [] => (false, [])
  end.

Definition parse_exp (s : jsstring) : option (Z * jsstring) :=
  match s with
  | c :: r =>
      if (c =? 101) || (c =? 69) then
        let '(neg, r1) := parse_sign true r in
        if starts_with_digit r1 then
          let '(e, r2) := parse_digits r1 0 in
          Some (if neg then (- Z.of_N e)%Z else Z.of_N e, r2)
        else None
      else Some (0%Z, s)
  | [] => Some (0%Z, [])
  end.

Definition parse_number (s : jsstring) : option (json * jsstring) :=
  let '(neg, s1) := parse_sign false s in
  match parse_int s1 with
  | None => None
  | Some (i, s2) =>
      match parse_frac s2 with
      | None => None
      | Some (f, k, s3) =>
          match parse_exp s3 with
          | None => None
          | Some (e, s4) =>
              let m := Z.of_N (i * 10 ^ N.of_nat k + f) in
              Some (JNumber (if neg then (- m)%Z else m) (e - Z.of_nat k), s4)
          end
      end
  end.

(** A character that ends a number: neither a digit, a point nor an
    exponent mark. *)
Definition ends_number (c : N) : Prop :=
  is_digit c = false /\ c <> 46 /\ c <> 101 /\ c <> 69.

(** What may follow a number: the end of the text, or such a character. *)
Definition ends_ok (rest : jsstring) : Prop :=
  match rest with
  | [] => True
  | c :: _ => ends_number c
  end.

(** *** Strings *)

Definition hex_val (c : N) : option N :=
  if is_digit c then Some (c - 48)
  else if (97 <=? c) && (c <=? 102) then Some (c - 87)
  else if (65 <=? c) && (c <=? 70) then Some (c - 55)
  else None.

Definition hex4 (a b c d : N) : option N :=
  match hex_val a, hex_val b, hex_val c, hex_val d with
  | Some x, Some y, Some z, Some w => Some (x * 4096 + y * 256 + z * 16 + w)
  | _, _, _, _ => None
  end.

(** The single-letter escapes after a backslash. *)
Definition unescape (e : N) : option N :=
  if e =? 34 then Some 34        (* quote *)
  else if e =? 92 then Some 92   (* backslash *)
  else if e =? 47 then Some 47   (* slash *)
  else if e =? 98 then Some 8    (* b *)
  else if e =? 102 then Some 12  (* f *)
  else if e =? 110 then Some 10  (* n *)
  else if e =? 114 then Some 13  (* r *)
  else if e =? 116 then Some 9   (* t *)
  else None.

Definition push (c : N) (r : option (jsstring * jsstring))
  : option (jsstring * jsstring) :=
  match r with
  | Some (s, rest) => Some (c :: s, rest)
  | None => None
  end.

(** The characters of a string literal, after its opening quote, up to and
    including the closing quote. *)
Fixpoint parse_chars (s : jsstring) : option (jsstring * jsstring) :=
  match s with
  | [] => None
  | c :: r =>
      if c =? 34 then Some ([], r)
      else if c =? 92 then
        match r with
        | [] => None
        | e :: r1 =>
            if e =? 117 then
              match r1 with
              | h1 :: h2 :: h3 :: h4 :: r2 =>
                  match hex4 h1 h2 h3 h4 with
                  | Some u => push u (parse_chars r2)
                  | None => None
                  end
              | _ => None
              end
            else
              match unescape e with
              | Some u => push u (parse_chars r1)
              | None => None
              end
        end
      else if c <? 32 then None
      else push c (parse_chars r)
  end.

(** *** Values *)

Definition expect (lit : jsstring) (v : json) (s : jsstring)
  : option (json * jsstring) :=
  if str_eqb (firstn (List.length lit) s) lit
  then Some (v, skipn (List.length lit) s) else None.

(** The rest of [s] after the character [c], when [s] starts with it. *)
Definition after (c : N) (s : jsstring) : option jsstring :=
  match s with
  | x :: r => if x =? c then Some r else None
  | [] => None
  end.

Fixpoint parse_value (fuel : nat) (s : jsstring) {struct fuel}
  : option (json * jsstring) :=
  match fuel with
  | O => None
  | S f =>
      match skip_ws s with
      | [] => None
      | c :: r =>
          if c =? 110 then expect (js "null") JNull (c :: r)
          else if c =? 116 then expect (js "true") (JBool true) (c :: r)
          else if c =? 102 then expect (js "false") (JBool false) (c :: r)
          else if c =? 34 then
            match parse_chars r with
            | Some (str, r') => Some (JString str, r')
            | None => None
            end
          else if c =? 91 then
            match after 93 (skip_ws r) with
            | Some r' => Some (JArray [], r')
            | None =>
                match parse_elements f r with
                | Some (xs, r') => Some (JArray xs, r')
                | None => None
                end
            end
          else if c =? 123 then
            match after 125 (skip_ws r) with
            | Some r' => Some (JObject [], r')
            | None =>
                match parse_members f r with
                | Some (ms, r') => Some (JObject ms, r')
                | None => None
                end
            end
          else parse_number (c :: r)
      end
  end

with parse_elements (fuel : nat) (s : jsstring) {struct fuel}
  : option (list json * jsstring) :=
  match fuel with
  | O => None
  | S f =>
      match parse_value f s with
      | None => None
      | Some (v, r) =>
          match skip_ws r with
          | [] => None
          | c :: r' =>
              if c =? 93 then Some ([v], r')
              else if c =? 44 then
                match parse_elements f r' with
                | Some (vs, r'') => Some (v :: vs, r'')
                | None => None
                end
              else None
          end
      end
  end

with parse_members (fuel : nat) (s : jsstring) {struct fuel}
  : option (list (jsstring * json) * jsstring) :=
  match fuel with
  | O => None
  | S f =>
      match after 34 (skip_ws s) with
      | None => None
      | Some r0 =>
          match parse_chars r0 with
          | None => None
          | Some (k, r1) =>
              match after 58 (skip_ws r1) with
              | None => None
              | Some r2 =>
                  match parse_value f r2 with
                  | None => None
                  | Some (v, r3) =>
                      match skip_ws r3 with
                      | [] => None
                      | c :: r' =>
                          if c =? 125 then Some ([(k, v)], r')
                          else if c =? 44 then
                            match parse_members f r' with
                            | Some (ms, r'') => Some ((k, v) :: ms, r'')
                            | None => None
                            end
                          else None
                      end
                  end
              end
          end
      end
  end.

(** [JSON.parse(text)]: [None] stands for the SyntaxError it throws. *)
Definition parse (text : jsstring) : option json :=
  match parse_value (2 * List.length text + 2) text with
  | Some (v, rest) =>
      match skip_ws rest with
      | [] => Some v
      | _ => None
      end
  | None => None
  end.

(** *** Serialization *)

Definition hex_digit (n : N) : N := if n <? 10 then 48 + n else 87 + n.

Definition unicode_escape (c : N) : jsstring :=
  [92; 117; hex_digit (c / 4096 mod 16); hex_digit (c / 256 mod 16);
   hex_digit (c / 16 mod 16); hex_digit (c mod 16)].

Definition is_high_surrogate (c : N) : bool := (0xD800 <=? c) && (c <=? 0xDBFF).
Definition is_low_surrogate (c : N) : bool := (0xDC00 <=? c) && (c <=? 0xDFFF).

(** QuoteJSONString, without the surrounding quotes. *)
Fixpoint quote_chars (s : jsstring) : jsstring :=
  match s with
  | [] => []
  | c :: r =>
      if c =? 8 then 92 :: 98 :: quote_chars r
      else if c =? 9 then 92 :: 116 :: quote_chars r
      else if c =? 10 then 92 :: 110 :: quote_chars r
      else if c =? 12 then 92 :: 102 :: quote_chars r
      else if c =? 13 then 92 :: 114 :: quote_chars r
      else if c =? 34 then 92 :: 34 :: quote_chars r
      else if c =? 92 then 92 :: 92 :: quote_chars r
      else if c <? 32 then unicode_escape c ++ quote_chars r
      else if is_high_surrogate c then
        match r with
        | d :: r' =>
            if is_low_surrogate d then c :: d :: quote_chars r'
            else unicode_escape c ++ quote_chars r
        | [] => unicode_escape c
        end
      else if is_low_surrogate c then unicode_escape c ++ quote_chars r
      else c :: quote_chars r
  end.

Definition quote (s : jsstring) : jsstring := 34 :: quote_chars s ++ [34].

Definition signed (z : Z) : jsstring :=
  (if (z <? 0)%Z then [45] else []) ++ of_N (Z.abs_N z).

(** Integers print as their decimal digits, which is what the component
    serializes ([file.size]); other values are printed in a mantissa and
    exponent form that denotes the same number. *)
Definition stringify_number (m e : Z) : jsstring :=
  if (e =? 0)%Z then signed m else signed m ++ 101 :: signed e.

(** [parts.join(sep)] on serialized parts. *)
Fixpoint join (sep : N) (parts : list jsstring) : jsstring :=
  match parts with
  | [] => []
  | [p] => p
  | p :: rest => p ++ sep :: join sep rest
  end.

Fixpoint stringify (v : json) : jsstring :=
  match v with
  | JNull => js "null"
  | JBool true => js "true"
  | JBool false => js "false"
  | JNumber m e => stringify_number m e
  | JString s => quote s
  | JArray xs => 91 :: join 44 (List.map stringify xs) ++ [93]
  | JObject ms =>
      123 :: join 44 (List.map (fun m => quote (fst m) ++ 58 :: stringify (snd m)) ms)
          ++ [125]
  end.

(** The text of one member of an object. *)
Definition member_text (m : jsstring * json) : jsstring :=
  quote (fst m) ++ 58 :: JSON.stringify (snd m).

(** The first character of a serialized value. *)
Definition starts_value (c : N) : Prop :=
  c = 45 \/ 48 <= c <= 57 \/ c = 34 \/ c = 91 \/ c = 123 \/
  c = 110 \/ c = 116 \/ c = 102.

(** The fuel that reading a value back takes. *)
Fixpoint size (v : json) : nat :=
  match v with
  | JArray xs => S (fold_right (fun x n => S (size x + n)) O xs)
  | JObject ms => S (fold_right (fun m n => S (size (snd m) + n)) O ms)
  | _ => 1
  end.

(** *** Property access on a parsed value *)

(** The last member named [k]: a repeated key overwrites the earlier one. *)
Fixpoint lookup (k : jsstring) (ms : list (jsstring * json)) : option json :=
  match ms with
  | [] => None
  | (k', v) :: ms' =>
      match lookup k ms' with
      | Some v' => Some v'
      | None => if str_eqb k' k then Some v else None
      end
  end.

End JSON.
Export JSON.

(** ** The world of the component *)

Local Open Scope nat_scope.

Definition byte : Type := Init.Byte.byte.

(** Values read out of a parsed message: [None] is [undefined]. *)
Definition value := option json.

Inductive error : Type :=
| SyntaxError
| TypeError
| InvalidStateError
| TransportError (name : jsstring).

Inductive RTCSdpType := offer | pranswer | answer | rollback.

Definition RTCSdpType_string (t : RTCSdpType) : jsstring :=
  match t with
  | offer => js "offer"
  | pranswer => js "pranswer"
  | answer => js "answer"
  | rollback => js "rollback"
  end.

Record RTCSessionDescription := {
  type : RTCSdpType;
  sdp : jsstring
}.

(** [RTCSessionDescription.prototype.toJSON], which [JSON.stringify] calls. *)
Definition toJSON (d : RTCSessionDescription) : json :=
  JObject [(js "type", JString (RTCSdpType_string (type d)));
           (js "sdp", JString (sdp d))].

(** [JSON.stringify(pc.localDescription)]; the description is [null] until
    one has been set. *)
Definition stringify_description (d : option RTCSessionDescription) : jsstring :=
  JSON.stringify (match d with Some d => toJSON d | None => JNull end).

Inductive RTCIceGatheringState := ice_new | ice_gathering | ice_complete.

Inductive RTCPeerConnectionState :=
  conn_new | conn_connecting | conn_connected | conn_disconnected
| conn_failed | conn_closed.

Inductive RTCDataChannelState := connecting | open | closing | closed.

Record RTCDataChannel := {
  label : jsstring;
  readyState : RTCDataChannelState
}.

(** What the component observes of its [RTCPeerConnection]. *)
Record RTCPeerConnection := {
  iceGatheringState : RTCIceGatheringState;
  connectionState : RTCPeerConnectionState;
  localDescription : option RTCSessionDescription;
  pcClosed : bool
}.

(** A frame on the data channel, and the [ev.data] it is delivered as. *)
Inductive frame :=
| TextFrame (s : jsstring)
| BinaryFrame (bytes : list byte).

Inductive BinaryType := bt_arraybuffer | bt_blob.

Inductive MessageData :=
| DString (s : jsstring)
| DArrayBuffer (bytes : list byte)
| DBlob (bytes : list byte).

Definition deliver (bt : BinaryType) (f : frame) : MessageData :=
  match f with
  | TextFrame s => DString s
  | BinaryFrame b =>
      match bt with
      | bt_arraybuffer => DArrayBuffer b
      | bt_blob => DBlob b
      end
  end.

Inductive origin := me | peer.

Record ChatMessage := {
  from : origin;
  text : value;
  at_ : Z
}.

Record FileMeta := {
  meta_name : jsstring;
  meta_size : N;
  meta_type : jsstring
}.

(** The messages the component puts in a text frame.  The [file-chunk]
    variant of the source type never goes through [JSON.stringify]. *)
Inductive WireMessage :=
| chat (text : jsstring)
| file_meta (meta : FileMeta)
| file_end.

Definition WireMessage_json (m : WireMessage) : json :=
  match m with
  | chat s => JObject [(js "t", JString (js "chat")); (js "text", JString s)]
  | file_meta m =>
      JObject [(js "t", JString (js "file-meta"));
               (js "meta",
                JObject [(js "name", JString (meta_name m));
                         (js "size", JNumber (Z.of_N (meta_size m)) 0);
                         (js "type", JString (meta_type m))])]
  | file_end => JObject [(js "t", JString (js "file-end"))]
  end.

(** [sendingRef.current]: the inbound transfer being assembled. *)
Record Transfer := {
  buffer : list (list byte);
  size : value
}.

Record File := {
  file_name : jsstring;
  file_type : jsstring;
  file_bytes : list byte
}.

(** The hooks of the component: React state and refs. *)
Record Component := {
  dataChannelRef : option RTCDataChannel;
  localOffer : jsstring;
  remoteAnswer : jsstring;
  remoteOffer : jsstring;
  localAnswer : jsstring;
  connected : bool;
  messages : list ChatMessage;
  outgoingText : jsstring;
  sendingRef : option Transfer
}.

(** Effects on the outside: notifications, calls into the transport, frames
    put on the channel, and downloads triggered. *)
Inductive effect :=
| Toast (title : jsstring) (description : option jsstring)
| ConsoleError (e : error)
| CreateDataChannel (label : jsstring)
| CreateOffer
| CreateAnswer
| SetLocalDescription (d : RTCSessionDescription)
| SetRemoteDescription (d : json)
| Send (f : frame)
| Download (content : list byte) (stamp : Z).

(** What the transport does while an asynchronous handler is suspended.
    [Created] settles a pending [createOffer] or [createAnswer], [Applied] a
    pending [setLocalDescription] or [setRemoteDescription], [Rejected] any
    of them. *)
Inductive pc_event :=
| IceGatheringStateChange (s : RTCIceGatheringState)
| LocalDescriptionChange (d : RTCSessionDescription)
| Created (d : RTCSessionDescription)
| Applied
| Rejected (e : error).

Record World := {
  comp : Component;
  pc : RTCPeerConnection;
  script : list pc_event;
  trace : list effect;
  now : Z
}.

Definition set_comp (c : Component) (w : World) : World :=
  {| comp := c; pc := pc w; script := script w; trace := trace w; now := now w |}.

Definition set_transport (p : RTCPeerConnection) (s : list pc_event) (w : World)
  : World :=
  {| comp := comp w; pc := p; script := s; trace := trace w; now := now w |}.

Definition emit (e : effect) (w : World) : World :=
  {| comp := comp w; pc := pc w; script := script w;
     trace := trace w ++ [e]; now := now w |}.

Definition emits (es : list effect) (w : World) : World :=
  {| comp := comp w; pc := pc w; script := script w;
     trace := trace w ++ es; now := now w |}.

(** ** Computations: handlers that may throw or stay suspended *)

Inductive Outcome (A : Type) :=
| Returned (a : A) (w : World)
| Thrown (e : error) (w : World)
| Pending (w : World).

Arguments Returned {A} a w.
Arguments Thrown {A} e w.
Arguments Pending {A} w.

Definition world_of {A} (o : Outcome A) : World :=
  match o with
  | Returned _ w => w
  | Thrown _ w => w
  | Pending w => w
  end.

Definition M (A : Type) := World -> Outcome A.

Definition ret {A} (a : A) : M A := fun w => Returned a w.

Definition bind {A B} (m : M A) (k : A -> M B) : M B :=
  fun w =>
    match m w with
    | Returned a w' => k a w'
    | Thrown e w' => Thrown e w'
    | Pending w' => Pending w'
    end.

Definition throw {A} (e : error) : M A := fun w => Thrown e w.

(** [try { body } catch (e) { handler }] *)
Definition try_catch {A} (body : M A) (handler : error -> M A) : M A :=
  fun w =>
    match body w with
    | Thrown e w' => handler e w'
    | o => o
    end.

Declare Scope m_scope.
Delimit Scope m_scope with M.
Notation "x <- m ;; k" := (bind m (fun x => k))
  (at level 61, m at next level, right associativity) : m_scope.
Notation "m ;; k" := (bind m (fun _ => k))
  (at level 61, right associativity) : m_scope.
Local Open Scope m_scope.

Definition gets {A} (f : World -> A) : M A := fun w => Returned (f w) w.
Definition modify (f : World -> World) : M unit := fun w => Returned tt (f w).
Definition perform (e : effect) : M unit := modify (emit e).
Definition update (f : Component -> Component) : M unit :=
  modify (fun w => set_comp (f (comp w)) w).

Definition toast (title : jsstring) (description : option jsstring) : M unit :=
  perform (Toast title description).
Definition console_error (e : error) : M unit := perform (ConsoleError e).
Definition Date_now : M Z := gets now.

(** *** State setters of the hooks *)

Definition with_dataChannelRef (v : option RTCDataChannel) (c : Component) :=
  {| dataChannelRef := v; localOffer := localOffer c;
     remoteAnswer := remoteAnswer c; remoteOffer := remoteOffer c;
     localAnswer := localAnswer c; connected := connected c;
     messages := messages c; outgoingText := outgoingText c;
     sendingRef := sendingRef c |}.

Definition with_localOffer (v : jsstring) (c : Component) :=
  {| dataChannelRef := dataChannelRef c; localOffer := v;
     remoteAnswer := remoteAnswer c; remoteOffer := remoteOffer c;
     localAnswer := localAnswer c; connected := connected c;
     messages := messages c; outgoingText := outgoingText c;
     sendingRef := sendingRef c |}.

Definition with_remoteAnswer (v : jsstring) (c : Component) :=
  {| dataChannelRef := dataChannelRef c; localOffer := localOffer c;
     remoteAnswer := v; remoteOffer := remoteOffer c;
     localAnswer := localAnswer c; connected := connected c;
     messages := messages c; outgoingText := outgoingText c;
     sendingRef := sendingRef c |}.

Definition with_remoteOffer (v : jsstring) (c : Component) :=
  {| dataChannelRef := dataChannelRef c; localOffer := localOffer c;
     remoteAnswer := remoteAnswer c; remoteOffer := v;
     localAnswer := localAnswer c; connected := connected c;
     messages := messages c; outgoingText := outgoingText c;
     sendingRef := sendingRef c |}.

Definition with_localAnswer (v : jsstring) (c : Component) :=
  {| dataChannelRef := dataChannelRef c; localOffer := localOffer c;
     remoteAnswer := remoteAnswer c; remoteOffer := remoteOffer c;
     localAnswer := v; connected := connected c;
     messages := messages c; outgoingText := outgoingText c;
     sendingRef := sendingRef c |}.

Definition with_connected (v : bool) (c : Component) :=
  {| dataChannelRef := dataChannelRef c; localOffer := localOffer c;
     remoteAnswer := remoteAnswer c; remoteOffer := remoteOffer c;
     localAnswer := localAnswer c; connected := v;
     messages := messages c; outgoingText := outgoingText c;
     sendingRef := sendingRef c |}.

Definition with_messages (v : list ChatMessage) (c : Component) :=
  {| dataChannelRef := dataChannelRef c; localOffer := localOffer c;
     remoteAnswer := remoteAnswer c; remoteOffer := remoteOffer c;
     localAnswer := localAnswer c; connected := connected c;
     messages := v; outgoingText := outgoingText c;
     sendingRef := sendingRef c |}.

Definition with_outgoingText (v : jsstring) (c : Component) :=
  {| dataChannelRef := dataChannelRef c; localOffer := localOffer c;
     remoteAnswer := remoteAnswer c; remoteOffer := remoteOffer c;
     localAnswer := localAnswer c; connected := connected c;
     messages := messages c; outgoingText := v;
     sendingRef := sendingRef c |}.

Definition with_sendingRef (v : option Transfer) (c : Component) :=
  {| dataChannelRef := dataChannelRef c; localOffer := localOffer c;
     remoteAnswer := remoteAnswer c; remoteOffer := remoteOffer c;
     localAnswer := localAnswer c; connected := connected c;
     messages := messages c; outgoingText := outgoingText c;
     sendingRef := v |}.

Definition setLocalOffer (v : jsstring) : M unit := update (with_localOffer v).
Definition setRemoteAnswer (v : jsstring) : M unit := update (with_remoteAnswer v).
Definition setRemoteOffer (v : jsstring) : M unit := update (with_remoteOffer v).
Definition setLocalAnswer (v : jsstring) : M unit := update (with_localAnswer v).
Definition setConnected (v : bool) : M unit := update (with_connected v).
Definition setOutgoingText (v : jsstring) : M unit := update (with_outgoingText v).

(** [setMessages((m) => f(m))] *)
Definition setMessages (f : list ChatMessage -> list ChatMessage) : M unit :=
  update (fun c => with_messages (f (messages c)) c).

(** *** Platform calls *)

(** [JSON.parse(text)] *)
Definition JSON_parse (s : jsstring) : M json :=
  match JSON.parse s with
  | Some v => ret v
  | None => throw SyntaxError
  end.

(** [v.k] for the property names the component reads ([t], [text], [meta],
    [size]): reading a property of [null] or [undefined] throws, an object
    yields its member, and numbers, booleans, strings and arrays have no
    property of these names. *)
Definition prop (v : value) (k : jsstring) : M value :=
  match v with
  | None | Some JNull => throw TypeError
  | Some (JObject ms) => ret (JSON.lookup k ms)
  | Some _ => ret None
  end.

(** [v === s] for a string literal [s] *)
Definition is_str (v : value) (s : jsstring) : bool :=
  match v with
  | Some (JString x) => str_eqb x s
  | _ => false
  end.

(** The transport state after an event has been observed. *)
Definition observe (ev : pc_event) (p : RTCPeerConnection) : RTCPeerConnection :=
  match ev with
  | IceGatheringStateChange s =>
      {| iceGatheringState := s; connectionState := connectionState p;
         localDescription := localDescription p; pcClosed := pcClosed p |}
  | LocalDescriptionChange d =>
      {| iceGatheringState := iceGatheringState p;
         connectionState := connectionState p;
         localDescription := Some d; pcClosed := pcClosed p |}
  | _ => p
  end.

(** Runs the transport until the awaited promise settles: the events before
    the settlement are observed, and [None] is returned when the script ends
    with the promise still pending. *)
Fixpoint settle {A} (pick : pc_event -> option (error + A))
    (p : RTCPeerConnection) (s : list pc_event)
  : option (error + A) * RTCPeerConnection * list pc_event :=
  match s with
  | [] => (None, p, [])
  | ev :: rest =>
      match pick ev with
      | Some r => (Some r, p, rest)
      | None => settle pick (observe ev p) rest
      end
  end.

(** [await promise] on a promise of the transport *)
Definition await {A} (pick : pc_event -> option (error + A)) : M A :=
  fun w =>
    match settle pick (pc w) (script w) with
    | (Some (inr a), p, s) => Returned a (set_transport p s w)
    | (Some (inl e), p, s) => Thrown e (set_transport p s w)
    | (None, p, s) => Pending (set_transport p s w)
    end.

Definition created (ev : pc_event) : option (error + RTCSessionDescription) :=
  match ev with
  | Created d => Some (inr d)
  | Rejected e => Some (inl e)
  | _ => None
  end.

Definition applied (ev : pc_event) : option (error + unit) :=
  match ev with
  | Applied => Some (inr tt)
  | Rejected e => Some (inl e)
  | _ => None
  end.

(** [await pc.createOffer(...)] *)
Definition pc_createOffer : M RTCSessionDescription :=
  perform CreateOffer ;; await created.

(** [await pc.createAnswer()] *)
Definition pc_createAnswer : M RTCSessionDescription :=
  perform CreateAnswer ;; await created.

(** [await pc.setLocalDescription(d)]: once applied, [d] is the local
    description. *)
Definition pc_setLocalDescription (d : RTCSessionDescription) : M unit :=
  perform (SetLocalDescription d) ;;
  await applied ;;
  modify (fun w => set_transport (observe (LocalDescriptionChange d) (pc w))
                                 (script w) w).

(** [await pc.setRemoteDescription(d)] *)
Definition pc_setRemoteDescription (d : json) : M unit :=
  perform (SetRemoteDescription d) ;; await applied.

(** [pc.createDataChannel(label)]: throws on a closed connection. *)
Definition pc_createDataChannel (l : jsstring) : M RTCDataChannel :=
  closed_ <- gets (fun w => pcClosed (pc w)) ;;
  if (closed_ : bool) then throw InvalidStateError
  else perform (CreateDataChannel l) ;;
       ret {| label := l; readyState := connecting |}.

Definition is_open (ch : RTCDataChannel) : bool :=
  match readyState ch with open => true | _ => false end.

(** [ch.send(data)]: throws unless the channel is open. *)
Definition send (ch : RTCDataChannel) (f : frame) : M unit :=
  if is_open ch then perform (Send f) else throw InvalidStateError.

(** ** The component *)

Module Text.
(** The notification texts, as code units where they are not ASCII. *)
Definition Connecte := js "Connect" ++ [0xE9]%N.
Definition Connexion_etablie := js "Connexion locale " ++ [0xE9]%N ++ js "tablie.".
Definition Connexion_perdue := js "Connexion perdue".
Definition Veuillez_reessayer := js "Veuillez r" ++ [0xE9]%N ++ js "essayer.".
Definition Canal_pret := js "Canal pr" ++ [0xEA]%N ++ js "t".
Definition Messages_disponibles := js "Messages et fichiers disponibles.".
Definition Fichier_recu := js "Fichier re" ++ [0xE7]%N ++ js "u".
Definition Telechargement_lance :=
  js "T" ++ [0xE9]%N ++ js "l" ++ [0xE9]%N ++ js "chargement lanc" ++ [0xE9]%N ++ js ".".
Definition Offre_prete := js "Offre pr" ++ [0xEA]%N ++ js "te".
Definition Copiez := js "Copiez et envoyez au pair.".
Definition Erreur := js "Erreur".
Definition Impossible :=
  js "Impossible de cr" ++ [0xE9]%N ++ js "er l" ++ [0x2019]%N ++ js "offre.".
Definition Reponse_appliquee :=
  js "R" ++ [0xE9]%N ++ js "ponse appliqu" ++ [0xE9]%N ++ js "e".
Definition Reponse_invalide := js "R" ++ [0xE9]%N ++ js "ponse invalide.".
Definition Reponse_prete := js "R" ++ [0xE9]%N ++ js "ponse pr" ++ [0xEA]%N ++ js "te".
Definition Renvoyez :=
  js "Renvoyez-la " ++ [0xE0]%N ++ js " l" ++ [0x2019]%N ++ js "h" ++ [0xF4]%N ++ js "te.".
Definition Offre_invalide := js "Offre invalide.".
Definition Fichier_envoye := js "Fichier envoy" ++ [0xE9]%N.
End Text.

(** The listener [check] of [waitForIceGathering]: it runs on every
    [icegatheringstatechange] and resolves once the state reads complete. *)
Fixpoint check (p : RTCPeerConnection) (s : list pc_event)
  : bool * RTCPeerConnection * list pc_event :=
  match s with
  | [] => (false, p, [])
  | ev :: rest =>
      let p' := observe ev p in
      match ev with
      | IceGatheringStateChange _ =>
          match iceGatheringState p' with
          | ice_complete => (true, p', rest)
          | _ => check p' rest
          end
      | _ => check p' rest
      end
  end.

Definition waitForIceGathering : M unit :=
  fun w =>
    match iceGatheringState (pc w) with
    | ice_complete => Returned tt w
    | _ =>
        match check (pc w) (script w) with
        | (true, p, s) => Returned tt (set_transport p s w)
        | (false, p, s) => Pending (set_transport p s w)
        end
    end.

(** [pc.onconnectionstatechange] *)
Definition onconnectionstatechange : M unit :=
  st <- gets (fun w => connectionState (pc w)) ;;
  match st with
  | conn_connected =>
      setConnected true ;;
      toast Text.Connecte (Some Text.Connexion_etablie)
  | conn_failed | conn_disconnected =>
      setConnected false ;;
      toast Text.Connexion_perdue (Some Text.Veuillez_reessayer)
  | _ => ret tt
  end.

(** [ch.onopen] *)
Definition onopen : M unit :=
  toast Text.Canal_pret (Some Text.Messages_disponibles).

Definition peer_message (t : value) (stamp : Z) : ChatMessage :=
  {| from := peer; text := t; at_ := stamp |}.

(** [ch.onmessage], installed by [wireDataChannel] *)
Definition onmessage (data : MessageData) : M unit :=
  match data with
  | DString data =>
      try_catch
        (msg <- JSON_parse data ;;
         t <- prop (Some msg) (js "t") ;;
         if is_str t (js "chat") then
           txt <- prop (Some msg) (js "text") ;;
           stamp <- Date_now ;;
           setMessages (fun m => m ++ [peer_message txt stamp])
         else if is_str t (js "file-meta") then
           meta <- prop (Some msg) (js "meta") ;;
           sz <- prop meta (js "size") ;;
           update (with_sendingRef (Some {| buffer := []; size := sz |}))
         else if is_str t (js "file-end") then
           entry <- gets (fun w => sendingRef (comp w)) ;;
           match entry with
           | Some entry =>
               let blob := concat (buffer entry) in
               toast Text.Fichier_recu (Some Text.Telechargement_lance) ;;
               stamp <- Date_now ;;
               perform (Download blob stamp) ;;
               update (with_sendingRef None)
           | None => ret tt
           end
         else ret tt)
        (fun _ =>
           (* plain text fallback *)
           stamp <- Date_now ;;
           setMessages (fun m => m ++ [peer_message (Some (JString data)) stamp]))
  | DArrayBuffer data =>
      cur <- gets (fun w => sendingRef (comp w)) ;;
      let entry :=
        match cur with
        | Some entry => entry
        | None => {| buffer := []; size := Some (JNumber 0 0) |}
        end in
      update (with_sendingRef
                (Some {| buffer := buffer entry ++ [data]; size := size entry |}))
  | DBlob _ => ret tt
  end.

(** [pc.ondatachannel] *)
Definition ondatachannel (ch : RTCDataChannel) : M unit :=
  update (with_dataChannelRef (Some ch)).

Definition createDataChannelIfNeeded : M unit :=
  cur <- gets (fun w => dataChannelRef (comp w)) ;;
  match cur with
  | None =>
      ch <- pc_createDataChannel (js "data") ;;
      update (with_dataChannelRef (Some ch))
  | Some _ => ret tt
  end.

Definition createOffer : M unit :=
  try_catch
    (createDataChannelIfNeeded ;;
     o <- pc_createOffer ;;
     pc_setLocalDescription o ;;
     waitForIceGathering ;;
     d <- gets (fun w => localDescription (pc w)) ;;
     setLocalOffer (stringify_description d) ;;
     toast Text.Offre_prete (Some Text.Copiez))
    (fun e =>
       console_error e ;;
       toast Text.Erreur (Some Text.Impossible)).

Definition applyAnswer : M unit :=
  try_catch
    (txt <- gets (fun w => remoteAnswer (comp w)) ;;
     desc <- JSON_parse txt ;;
     pc_setRemoteDescription desc ;;
     toast Text.Reponse_appliquee None)
    (fun e =>
       console_error e ;;
       toast Text.Erreur (Some Text.Reponse_invalide)).

Definition acceptOffer : M unit :=
  try_catch
    (txt <- gets (fun w => remoteOffer (comp w)) ;;
     o <- JSON_parse txt ;;
     pc_setRemoteDescription o ;;
     a <- pc_createAnswer ;;
     pc_setLocalDescription a ;;
     waitForIceGathering ;;
     d <- gets (fun w => localDescription (pc w)) ;;
     setLocalAnswer (stringify_description d) ;;
     toast Text.Reponse_prete (Some Text.Renvoyez))
    (fun e =>
       console_error e ;;
       toast Text.Erreur (Some Text.Offre_invalide)).

Definition my_message (t : jsstring) (stamp : Z) : ChatMessage :=
  {| from := me; text := Some (JString t); at_ := stamp |}.

Definition sendChat : M unit :=
  cur <- gets (fun w => dataChannelRef (comp w)) ;;
  match cur with
  | None => ret tt
  | Some ch =>
      if negb (is_open ch) then ret tt
      else
        txt <- gets (fun w => outgoingText (comp w)) ;;
        if negb (truthy (trim txt)) then ret tt
        else
          send ch (TextFrame (JSON.stringify (WireMessage_json (chat txt)))) ;;
          stamp <- Date_now ;;
          setMessages (fun m => m ++ [my_message txt stamp]) ;;
          setOutgoingText []
  end.

Definition chunkSize : nat := 16 * 1024.

(** [buf.slice(i, j)] for [i <= j]; the end is clamped to the length. *)
Definition slice (buf : list byte) (i j : nat) : list byte :=
  firstn (j - i) (skipn i buf).

(** [await new Promise((r) => setTimeout(r, 0))]: the handler gives the
    scheduler a turn and resumes. *)
Definition yield : M unit := ret tt.

(** The loop [for (let i = 0; i < buf.byteLength; i += chunkSize)], entered
    at offset [i].  It advances by [chunkSize] each turn, so [fuel] equal to
    the byte length is never used up. *)
Fixpoint send_chunks (fuel : nat) (ch : RTCDataChannel) (buf : list byte)
    (i : nat) : M unit :=
  match fuel with
  | O => ret tt
  | S f =>
      if i <? List.length buf then
        send ch (BinaryFrame (slice buf i (i + chunkSize))) ;;
        yield ;;
        send_chunks f ch buf (i + chunkSize)
      else ret tt
  end.

Definition file_meta_of (file : File) : FileMeta :=
  {| meta_name := file_name file;
     meta_size := N.of_nat (List.length (file_bytes file));
     meta_type := file_type file |}.

Definition sendFile (file : option File) : M unit :=
  cur <- gets (fun w => dataChannelRef (comp w)) ;;
  match file, cur with
  | Some file, Some ch =>
      if negb (is_open ch) then ret tt
      else
        send ch (TextFrame
                   (JSON.stringify (WireMessage_json (file_meta (file_meta_of file))))) ;;
        let buf := file_bytes file in
        send_chunks (List.length buf) ch buf 0 ;;
        send ch (TextFrame (JSON.stringify (WireMessage_json file_end))) ;;
        toast Text.Fichier_envoye None
  | _, _ => ret tt
  end.

(** *** The component as a whole *)

(** The initial values of the hooks and a fresh connection. *)
Definition initial_component : Component :=
  {| dataChannelRef := None; localOffer := []; remoteAnswer := [];
     remoteOffer := []; localAnswer := []; connected := false;
     messages := []; outgoingText := []; sendingRef := None |}.

Definition initial_world : World :=
  {| comp := initial_component;
     pc := {| iceGatheringState := ice_new; connectionState := conn_new;
              localDescription := None; pcClosed := false |};
     script := []; trace := []; now := 0%Z |}.

(** What the user and the transport can make the component do. *)
Inductive event :=
| click_createOffer
| click_applyAnswer
| click_acceptOffer
| click_sendChat
| change_outgoingText (s : jsstring)
| change_remoteAnswer (s : jsstring)
| change_remoteOffer (s : jsstring)
| pick_file (file : option File)
| channel_open
| channel_message (data : MessageData)
| connection_state_change
| data_channel (ch : RTCDataChannel).

Definition handle (e : event) : M unit :=
  match e with
  | click_createOffer => createOffer
  | click_applyAnswer => applyAnswer
  | click_acceptOffer => acceptOffer
  | click_sendChat => sendChat
  | change_outgoingText s => setOutgoingText s
  | change_remoteAnswer s => setRemoteAnswer s
  | change_remoteOffer s => setRemoteOffer s
  | pick_file file => sendFile file
  | channel_open => onopen
  | channel_message data => onmessage data
  | connection_state_change => onconnectionstatechange
  | data_channel ch => ondatachannel ch
  end.

(** The operations of the session as a user performs them: paste the text
    into its field, then press the button. *)
Definition startAsInitiator : M unit := createOffer.
Definition applyRemoteAnswer (text : jsstring) : M unit :=
  setRemoteAnswer text ;; applyAnswer.
Definition acceptRemoteOffer (text : jsstring) : M unit :=
  setRemoteOffer text ;; acceptOffer.

(** The signaling codec: the blob shown for a local description, and the
    parse applied to a pasted one. *)
Definition encode (d : RTCSessionDescription) : jsstring :=
  stringify_description (Some d).
Definition decode (text : jsstring) : option json := JSON.parse text.

(** The text frame that carries a message. *)
Definition wire (m : WireMessage) : frame :=
  TextFrame (JSON.stringify (WireMessage_json m)).

(** The frames put on the channel, in the order of a trace. *)
Fixpoint sent (tr : list effect) : list frame :=
  match tr with
  | [] => []
  | Send f :: tr' => f :: sent tr'
  | _ :: tr' => sent tr'
  end.

(** The effects a handler adds to the trace of [w]. *)
Definition effects_of {A} (m : M A) (w : World) : list effect :=
  skipn (List.length (trace w)) (trace (world_of (m w))).

(** The receiver handles the frames of the channel in order. *)
Fixpoint receive (bt : BinaryType) (frames : list frame) : M unit :=
  match frames with
  | [] => ret tt
  | f :: rest => onmessage (deliver bt f) ;; receive bt rest
  end.

(** The slices the send loop takes, from offset [i] on. *)
Fixpoint chunks_from (fuel : nat) (buf : list byte) (i : nat) : list (list byte) :=
  match fuel with
  | O => []
  | S f =>
      if i <? List.length buf then
        slice buf i (i + chunkSize) :: chunks_from f buf (i + chunkSize)
      else []
  end.

(** [msg.t] where it can be read: only an object has members. *)
Definition tag_of (msg : json) : value :=
  match msg with
  | JObject ms => JSON.lookup (js "t") ms
  | _ => None
  end.

(** The tag is none of the three the receiver dispatches on. *)
Definition other_tag (msg : json) : Prop :=
  is_str (tag_of msg) (js "chat") = false /\
  is_str (tag_of msg) (js "file-meta") = false /\
  is_str (tag_of msg) (js "file-end") = false.

(** A handler only ever adds messages at the end of the log. *)
Definition extends_log {A} (m : M A) : Prop :=
  forall w, exists new,
    messages (comp (world_of (m w))) = messages (comp w) ++ new.

(** A world whose data channel is open. *)
Definition open_channel : RTCDataChannel :=
  {| label := js "data"; readyState := open |}.

Definition connected_world : World :=
  set_comp (with_dataChannelRef (Some open_channel) initial_component)
           initial_world.

(** A small file. *)
Definition three_bytes : File :=
  {| file_name := js "a.bin"; file_type := js "application/octet-stream";
     file_bytes := [Byte.x01; Byte.x02; Byte.x03] |}.

(** The log as the pairs of text and origin, without the time stamps. *)
Definition log (c : Component) : list (value * origin) :=
  List.map (fun m => (text m, from m)) (messages c).

(** [w'] differs from [w] at most in the log, the inbound transfer and the
    trace: the transport, the clock and the other hooks are those of [w]. *)
Definition same_elsewhere (w w' : World) : Prop :=
  pc w' = pc w /\ script w' = script w /\ now w' = now w /\
  dataChannelRef (comp w') = dataChannelRef (comp w) /\
  localOffer (comp w') = localOffer (comp w) /\
  remoteAnswer (comp w') = remoteAnswer (comp w) /\
  remoteOffer (comp w') = remoteOffer (comp w) /\
  localAnswer (comp w') = localAnswer (comp w) /\
  connected (comp w') = connected (comp w) /\
  outgoingText (comp w') = outgoingText (comp w).

(** *** Vocabulary of the further properties *)

(** [m] leaves the part [f] of the world as it was. *)
Definition keeps {X A} (f : World -> X) (m : M A) : Prop :=
  forall w, f (world_of (m w)) = f w.

(** The event that reports the end of candidate gathering. *)
Definition gathering_done : pc_event := IceGatheringStateChange ice_complete.

(** The transport after it has produced the events [evs]. *)
Definition observe_all (evs : list pc_event) (p : RTCPeerConnection)
  : RTCPeerConnection :=
  fold_left (fun p ev => observe ev p) evs p.

(** Events that settle no promise: state changes of the transport. *)
Definition state_change (ev : pc_event) : Prop :=
  match ev with
  | IceGatheringStateChange _ | LocalDescriptionChange _ => True
  | _ => False
  end.

(** Effects that stay on the receiver's side: a notification, a download. *)
Definition local_effect (e : effect) : Prop :=
  match e with
  | Toast _ _ | Download _ _ => True
  | _ => False
  end.

(** What travels during a transfer: a chunk of the file, or a chat message
    sent in between. *)
Definition mixed_frame (x : list byte + jsstring) : frame :=
  match x with
  | inl chunk => BinaryFrame chunk
  | inr s => wire (chat s)
  end.

Fixpoint chunks_of (mix : list (list byte + jsstring)) : list (list byte) :=
  match mix with
  | [] => []
  | inl chunk :: rest => chunk :: chunks_of rest
  | inr _ :: rest => chunks_of rest
  end.

Fixpoint chats_of (mix : list (list byte + jsstring)) : list jsstring :=
  match mix with
  | [] => []
  | inl _ :: rest => chats_of rest
  | inr s :: rest => s :: chats_of rest
  end.

(** The local description after the events [evs], starting from [d]. *)
Definition last_description (d : RTCSessionDescription) (evs : list pc_event)
  : RTCSessionDescription :=
  fold_left (fun d ev =>
               match ev with
               | LocalDescriptionChange d' => d'
               | _ => d
               end) evs d.

(** A handler that catches its errors: it never throws, and a run that
    returns ends either with the notification [ok] or with the logged error
    followed by the notification [err]. *)
Definition reports (ok err : effect) (m : M unit) (w : World) : Prop :=
  match m w with
  | Thrown _ _ => False
  | Pending _ => True
  | Returned _ _ =>
      exists pre,
        effects_of m w = pre ++ [ok] \/
        exists e, effects_of m w = pre ++ [ConsoleError e; err]
  end.

(** [m] keeps the property [Q] of the world. *)
Definition preserves {A} (Q : World -> Prop) (m : M A) : Prop :=
  forall w, Q w -> Q (world_of (m w)).

(** [m] only adds to the trace, and only effects that satisfy [P]. *)
Definition emits_only {A} (P : effect -> Prop) (m : M A) : Prop :=
  forall w, exists new,
    trace (world_of (m w)) = trace w ++ new /\ Forall P new.

(** The component holds a data channel. *)
Definition has_channel (w : World) : Prop := dataChannelRef (comp w) <> None.

Definition creates_channel (e : effect) : Prop :=
  match e with CreateDataChannel _ => True | _ => False end.

(** * Properties *)

(** ** JSON: what [stringify] writes, [parse] reads back *)

Section JsonFacts.
Local Open Scope N_scope.

Lemma str_eqb_refl s : str_eqb s s = true.
Proof. induction s; simpl; auto. rewrite N.eqb_refl; auto. Qed.

Lemma str_eqb_eq a b : str_eqb a b = true <-> a = b.
Proof.
  split; [|intros ->; apply str_eqb_refl].
  revert b; induction a as [|x a IH]; destruct b as [|y b]; simpl; try discriminate; auto.
  intros H. apply andb_true_iff in H as [H1 H2].
  apply N.eqb_eq in H1. f_equal; auto.
Qed.

Lemma hex_val_digit n : n < 16 -> hex_val (hex_digit n) = Some n.
Proof.
  intros H. unfold hex_val, hex_digit, is_digit.
  destruct (N.ltb_spec n 10).
  - replace ((48 <=? 48 + n) && (48 + n <=? 57)) with true.
    + f_equal; lia.
    + symmetry. apply andb_true_iff; split; apply N.leb_le; lia.
  - replace ((48 <=? 87 + n) && (87 + n <=? 57)) with false.
    + replace ((97 <=? 87 + n) && (87 + n <=? 102)) with true.
      * f_equal; lia.
      * symmetry. apply andb_true_iff; split; apply N.leb_le; lia.
    + symmetry. apply andb_false_iff; right. apply N.leb_gt; lia.
Qed.

Lemma hex4_escape c :
  c < 65536 ->
  hex4 (hex_digit (c / 4096 mod 16)) (hex_digit (c / 256 mod 16))
       (hex_digit (c / 16 mod 16)) (hex_digit (c mod 16)) = Some c.
Proof.
  intros H. unfold hex4.
  rewrite !hex_val_digit by (apply N.mod_lt; discriminate).
  f_equal.
  assert (E1 := N.div_mod c 16 ltac:(discriminate)).
  assert (E2 := N.div_mod (c / 16) 16 ltac:(discriminate)).
  assert (E3 := N.div_mod (c / 16 / 16) 16 ltac:(discriminate)).
  assert (E4 : c / 16 / 16 / 16 < 16).
  { rewrite !N.Div0.div_div. apply N.Div0.div_lt_upper_bound. simpl. lia. }
  replace (c / 4096) with (c / 16 / 16 / 16) by (rewrite !N.Div0.div_div; reflexivity).
  replace (c / 256) with (c / 16 / 16) by (rewrite !N.Div0.div_div; reflexivity).
  rewrite (N.mod_small _ _ E4).
  lia.
Qed.

Ltac cond_false :=
  repeat match goal with
  | |- context [N.eqb ?a ?b] =>
      replace (N.eqb a b) with false by (symmetry; apply N.eqb_neq; lia)
  | |- context [N.ltb ?a ?b] =>
      replace (N.ltb a b) with false by (symmetry; apply N.ltb_ge; lia)
  end.

Lemma surrogate_bound c :
  is_high_surrogate c = true \/ is_low_surrogate c = true -> c < 65536.
Proof.
  unfold is_high_surrogate, is_low_surrogate.
  intros [H|H]; apply andb_true_iff in H as [_ H]; apply N.leb_le in H; lia.
Qed.

Lemma parse_chars_escape c tail :
  c < 65536 ->
  parse_chars (unicode_escape c ++ tail) = push c (parse_chars tail).
Proof.
  intros H. unfold unicode_escape. cbn [app parse_chars].
  change (92 =? 34) with false. change (92 =? 92) with true.
  change (117 =? 117) with true. cbn iota.
  rewrite hex4_escape by assumption. reflexivity.
Qed.

Lemma parse_chars_quote_le n : forall s rest,
  (List.length s <= n)%nat ->
  parse_chars (quote_chars s ++ 34 :: rest) = Some (s, rest).
Proof.
  induction n as [|n IH]; intros [|c r] rest Hn; simpl in Hn; try lia;
    try reflexivity.
  assert (Hr : (List.length r <= n)%nat) by lia.
  cbn [quote_chars].
  destruct (N.eqb_spec c 8) as [->|N8]; [cbn; now rewrite IH|].
  destruct (N.eqb_spec c 9) as [->|N9]; [cbn; now rewrite IH|].
  destruct (N.eqb_spec c 10) as [->|N10]; [cbn; now rewrite IH|].
  destruct (N.eqb_spec c 12) as [->|N12]; [cbn; now rewrite IH|].
  destruct (N.eqb_spec c 13) as [->|N13]; [cbn; now rewrite IH|].
  destruct (N.eqb_spec c 34) as [->|N34]; [cbn; now rewrite IH|].
  destruct (N.eqb_spec c 92) as [->|N92]; [cbn; now rewrite IH|].
  destruct (N.ltb_spec c 32) as [L32|G32].
  { rewrite <- app_assoc, parse_chars_escape by lia. now rewrite IH. }
  destruct (is_high_surrogate c) eqn:Hh.
  { assert (c < 65536) by (apply surrogate_bound; auto).
    destruct r as [|d r'].
    - rewrite parse_chars_escape by lia. reflexivity.
    - destruct (is_low_surrogate d) eqn:Hl.
      + assert (Hd : 0xDC00 <= d).
        { unfold is_low_surrogate in Hl. apply andb_true_iff in Hl as [Hl _].
          now apply N.leb_le in Hl. }
        cbn [app parse_chars]. cond_false. cbn iota.
        cbn [app parse_chars]. cond_false. cbn iota.
        rewrite IH by (simpl in Hr; lia). reflexivity.
      + rewrite <- app_assoc, parse_chars_escape by lia. now rewrite IH. }
  destruct (is_low_surrogate c) eqn:Hl.
  { assert (c < 65536) by (apply surrogate_bound; auto).
    rewrite <- app_assoc, parse_chars_escape by lia. now rewrite IH. }
  cbn [app parse_chars]. cond_false. cbn iota. now rewrite IH.
Qed.

Lemma parse_chars_quote s rest :
  parse_chars (quote_chars s ++ 34 :: rest) = Some (s, rest).
Proof. apply (parse_chars_quote_le (List.length s)). lia. Qed.

Lemma is_digit_true d : 48 <= d <= 57 -> is_digit d = true.
Proof.
  intros [H1 H2]. unfold is_digit.
  apply andb_true_iff; split; apply N.leb_le; assumption.
Qed.

Lemma parse_digits_dec f : forall n acc rest,
  n < 10 ^ N.of_nat f ->
  parse_digits (dec_digits f n acc ++ rest) 0 = parse_digits (acc ++ rest) n.
Proof.
  induction f as [|f IH]; intros n acc rest Hn.
  - simpl in Hn. replace n with 0 by lia. reflexivity.
  - cbn [dec_digits].
    assert (Hm : n mod 10 < 10) by (apply N.mod_lt; discriminate).
    assert (Hd := N.div_mod n 10 ltac:(discriminate)).
    assert (Hq : n / 10 < 10 ^ N.of_nat f).
    { rewrite Nat2N.inj_succ, N.pow_succ_r' in Hn.
      apply N.Div0.div_lt_upper_bound. assumption. }
    destruct (N.ltb_spec n 10) as [L|G].
    + rewrite N.mod_small by assumption.
      cbn [app parse_digits].
      rewrite is_digit_true by lia. f_equal. lia.
    + rewrite IH by assumption.
      revert Hm Hd. generalize (n mod 10) (n / 10). intros m q Hm Hd.
      cbn [app parse_digits]. rewrite is_digit_true by lia. f_equal. lia.
Qed.

Lemma dec_digits_first f : forall n acc,
  n < 10 ^ N.of_nat f -> 0 < n ->
  exists d tl, dec_digits f n acc = d :: tl /\ 49 <= d <= 57.
Proof.
  induction f as [|f IH]; intros n acc Hn Hp.
  - simpl in Hn. lia.
  - cbn [dec_digits].
    destruct (N.ltb_spec n 10) as [L|G].
    + exists (48 + n mod 10), acc. rewrite N.mod_small by assumption.
      split; [reflexivity | lia].
    + apply IH.
      * rewrite Nat2N.inj_succ, N.pow_succ_r' in Hn.
        apply N.Div0.div_lt_upper_bound. assumption.
      * apply N.lt_le_trans with 1; [reflexivity|].
        apply N.div_le_lower_bound; lia.
Qed.

Lemma of_N_fuel n : n < 10 ^ N.of_nat (S (N.to_nat (N.log2 n))).
Proof.
  rewrite Nat2N.inj_succ, N2Nat.id.
  destruct (N.eq_dec n 0) as [->|Hz]; [reflexivity|].
  destruct (N.log2_spec n ltac:(lia)) as [_ H].
  eapply N.lt_le_trans; [exact H|].
  apply N.pow_le_mono_l. lia.
Qed.

Lemma ends_ok_no_digit rest : ends_ok rest -> starts_with_digit rest = false.
Proof. destruct rest as [|c r]; [reflexivity|]. now intros (H & _). Qed.

Lemma parse_digits_of_N n rest :
  starts_with_digit rest = false ->
  parse_digits (of_N n ++ rest) 0 = (n, rest).
Proof.
  intros Hc. unfold of_N. rewrite parse_digits_dec by apply of_N_fuel.
  cbn [app]. destruct rest as [|c r]; [reflexivity|].
  cbn [parse_digits]. cbn in Hc. now rewrite Hc.
Qed.

Lemma of_N_head n : exists d tl, of_N n = d :: tl /\ 48 <= d <= 57.
Proof.
  destruct (N.eq_dec n 0) as [->|Hz].
  - exists 48, []. split; [reflexivity | lia].
  - destruct (dec_digits_first _ n [] (of_N_fuel n) ltac:(lia))
      as (d & tl & E & Hr).
    exists d, tl. split; [exact E | lia].
Qed.

Lemma parse_int_of_N n rest :
  starts_with_digit rest = false ->
  parse_int (of_N n ++ rest) = Some (n, rest).
Proof.
  intros Hc. destruct (N.eq_dec n 0) as [->|Hz].
  - reflexivity.
  - destruct (dec_digits_first _ n [] (of_N_fuel n) ltac:(lia))
      as (d & tl & E & Hrange).
    fold (of_N n) in E.
    assert (P := parse_digits_of_N n rest Hc).
    rewrite E in P |- *. cbn [app] in P |- *.
    unfold parse_int. cond_false. rewrite is_digit_true by lia.
    now rewrite P.
Qed.

Lemma parse_sign_signed plus z rest :
  parse_sign plus (signed z ++ rest) = ((z <? 0)%Z, of_N (Z.abs_N z) ++ rest).
Proof.
  unfold signed. destruct (z <? 0)%Z.
  - reflexivity.
  - cbn [app]. destruct (of_N_head (Z.abs_N z)) as (d & tl & E & Hr).
    rewrite E. cbn [app parse_sign]. cond_false.
    now rewrite andb_false_r.
Qed.

Lemma starts_with_digit_of_N n rest : starts_with_digit (of_N n ++ rest) = true.
Proof.
  destruct (of_N_head n) as (d & tl & E & Hr). rewrite E.
  cbn. now apply is_digit_true.
Qed.

Lemma parse_frac_none rest : ends_ok rest -> parse_frac rest = Some (0, O, rest).
Proof.
  destruct rest as [|c r]; [reflexivity|]. intros (_ & H46 & _).
  unfold parse_frac. now rewrite (proj2 (N.eqb_neq c 46) H46).
Qed.

Lemma parse_exp_none rest : ends_ok rest -> parse_exp rest = Some (0%Z, rest).
Proof.
  destruct rest as [|c r]; [reflexivity|]. intros (_ & _ & H101 & H69).
  unfold parse_exp.
  now rewrite (proj2 (N.eqb_neq c 101) H101), (proj2 (N.eqb_neq c 69) H69).
Qed.

Lemma signed_abs b z : b = (z <? 0)%Z ->
  (if b then (- Z.of_N (Z.abs_N z))%Z else Z.of_N (Z.abs_N z)) = z.
Proof.
  intros ->. rewrite N2Z.inj_abs_N.
  destruct (Z.ltb_spec z 0); lia.
Qed.

Lemma parse_exp_signed e rest :
  ends_ok rest -> parse_exp (101 :: signed e ++ rest) = Some (e, rest).
Proof.
  intros H. unfold parse_exp. cbn [N.eqb Pos.eqb orb].
  rewrite parse_sign_signed, starts_with_digit_of_N.
  rewrite parse_digits_of_N by now apply ends_ok_no_digit.
  now rewrite signed_abs.
Qed.

(** A number is read back as it was written. *)
Lemma parse_number_stringify m e rest :
  ends_ok rest ->
  parse_number (stringify_number m e ++ rest) = Some (JNumber m e, rest).
Proof.
  intros H. unfold parse_number, stringify_number.
  destruct (Z.eqb_spec e 0) as [->|He].
  - rewrite parse_sign_signed.
    rewrite parse_int_of_N by now apply ends_ok_no_digit.
    rewrite parse_frac_none, parse_exp_none by assumption.
    cbn [N.of_nat]. rewrite N.pow_0_r, N.mul_1_r, N.add_0_r.
    now rewrite signed_abs.
  - rewrite <- app_assoc, parse_sign_signed. cbn [app].
    rewrite parse_int_of_N by reflexivity.
    assert (Hf : forall r, parse_frac (101 :: r) = Some (0, O, 101 :: r))
      by reflexivity.
    rewrite Hf, parse_exp_signed by assumption.
    cbn [N.of_nat]. rewrite N.pow_0_r, N.mul_1_r, N.add_0_r.
    rewrite signed_abs by reflexivity. now rewrite Z.sub_0_r.
Qed.

(** *** Fuel *)

Ltac split_match H :=
  match type of H with
  | context [match ?x with _ => _ end] =>
      let E := fresh "E" in destruct x eqn:E; try discriminate H
  end.

Lemma parse_fuel_mono f :
  (forall f' s r, (f <= f')%nat ->
     parse_value f s = Some r -> parse_value f' s = Some r) /\
  (forall f' s r, (f <= f')%nat ->
     parse_elements f s = Some r -> parse_elements f' s = Some r) /\
  (forall f' s r, (f <= f')%nat ->
     parse_members f s = Some r -> parse_members f' s = Some r).
Proof.
  induction f as [|f (IHv & IHe & IHm)].
  - repeat split; intros; discriminate.
  - repeat split; intros [|f'] s r Hle H; try lia;
      assert (Hf : (f <= f')%nat) by lia;
      cbn [parse_value parse_elements parse_members] in H |- *;
      repeat split_match H; try assumption;
      repeat match goal with
      | E : parse_value f ?s = Some ?r |- context [parse_value f' ?s] =>
          rewrite (IHv f' s r Hf E)
      | E : parse_elements f ?s = Some ?r |- context [parse_elements f' ?s] =>
          rewrite (IHe f' s r Hf E)
      | E : parse_members f ?s = Some ?r |- context [parse_members f' ?s] =>
          rewrite (IHm f' s r Hf E)
      | E : ?x = _ |- context [match ?x with _ => _ end] => rewrite E
      end; assumption.
Qed.

Lemma parse_value_mono f f' s r :
  (f <= f')%nat -> parse_value f s = Some r -> parse_value f' s = Some r.
Proof. apply parse_fuel_mono. Qed.


(** *** Reading back what [stringify] wrote *)

Lemma parse_value_string f s rest :
  parse_value (S f) (quote s ++ rest) = Some (JString s, rest).
Proof.
  unfold quote. cbn [app parse_value skip_ws is_ws N.eqb Pos.eqb orb].
  rewrite <- app_assoc. cbn [app]. now rewrite parse_chars_quote.
Qed.

Lemma stringify_number_head m e :
  exists c tl, stringify_number m e = c :: tl /\ (c = 45 \/ 48 <= c <= 57).
Proof.
  assert (H : exists c tl, signed m = c :: tl /\ (c = 45 \/ 48 <= c <= 57)).
  { unfold signed. destruct (m <? 0)%Z.
    - exists 45, (of_N (Z.abs_N m)). auto.
    - destruct (of_N_head (Z.abs_N m)) as (d & tl & E & Hr).
      exists d, tl. cbn [app]. auto. }
  destruct H as (c & tl & E & Hc). unfold stringify_number.
  destruct (e =? 0)%Z; rewrite E; cbn [app]; eauto.
Qed.

Lemma stringify_head v :
  exists c tl, JSON.stringify v = c :: tl /\ starts_value c.
Proof.
  unfold starts_value.
  destruct v as [|[|]|m e|s|xs|ms]; cbn [JSON.stringify].
  - exists 110, (js "ull"). split; [reflexivity|tauto].
  - exists 116, (js "rue"). split; [reflexivity|tauto].
  - exists 102, (js "alse"). split; [reflexivity|tauto].
  - destruct (stringify_number_head m e) as (c & tl & E & Hc).
    exists c, tl. split; [exact E|tauto].
  - eexists _, _. split; [reflexivity|tauto].
  - eexists _, _. split; [reflexivity|tauto].
  - eexists _, _. split; [reflexivity|tauto].
Qed.

Lemma parse_value_number f m e rest :
  ends_ok rest ->
  parse_value (S f) (stringify_number m e ++ rest) = Some (JNumber m e, rest).
Proof.
  intros H. assert (P := parse_number_stringify m e rest H).
  destruct (stringify_number_head m e) as (c & tl & E & Hc).
  rewrite E in P |- *. cbn [app] in P |- *.
  cbn [parse_value skip_ws]. unfold is_ws.
  destruct Hc as [->|Hc]; [exact P|].
  cond_false. cbn [orb]. cond_false. exact P.
Qed.

(** Nothing is skipped in front of a value, and a value is not a closing
    bracket. *)
Lemma after_value c v rest :
  c = 93 \/ c = 125 ->
  after c (skip_ws (JSON.stringify v ++ rest)) = None.
Proof.
  intros Hc. destruct (stringify_head v) as (d & tl & E & Hd).
  rewrite E. cbn [app skip_ws]. unfold is_ws, starts_value in *.
  assert (Hws : (d =? 32) || (d =? 9) || (d =? 10) || (d =? 13) = false).
  { repeat (apply orb_false_iff; split); apply N.eqb_neq; lia. }
  rewrite Hws. cbn [after].
  assert (Hdc : d <> c) by lia.
  now rewrite (proj2 (N.eqb_neq d c) Hdc).
Qed.

Lemma after_quote c k rest :
  after c (skip_ws (quote k ++ rest)) =
  if 34 =? c then Some (quote_chars k ++ 34 :: rest) else None.
Proof.
  unfold quote. cbn [app skip_ws is_ws N.eqb Pos.eqb orb after].
  rewrite <- app_assoc. reflexivity.
Qed.

Lemma join_one sep p : join sep [p] = p.
Proof. reflexivity. Qed.

Lemma join_cons sep p q r : join sep (p :: q :: r) = p ++ sep :: join sep (q :: r).
Proof. reflexivity. Qed.

Lemma after_elements x xs rest :
  after 93 (skip_ws (join 44 (List.map JSON.stringify (x :: xs)) ++ rest)) = None.
Proof.
  destruct xs; cbn [join List.map]; rewrite <- ?app_assoc;
    apply after_value; auto.
Qed.

Lemma after_members m ms rest :
  after 125 (skip_ws (join 44 (List.map member_text (m :: ms)) ++ rest)) = None.
Proof.
  destruct ms; cbn [join List.map]; unfold member_text;
    rewrite <- ?app_assoc; rewrite after_quote; reflexivity.
Qed.

Lemma ends_ok_comma rest : ends_ok (44 :: rest).
Proof. repeat split; discriminate. Qed.

Lemma ends_ok_bracket rest : ends_ok (93 :: rest).
Proof. repeat split; discriminate. Qed.

Lemma ends_ok_brace rest : ends_ok (125 :: rest).
Proof. repeat split; discriminate. Qed.

Lemma parse_stringify_fuel f :
  (forall v rest, (JSON.size v <= f)%nat -> ends_ok rest ->
     parse_value f (JSON.stringify v ++ rest) = Some (v, rest)) /\
  (forall xs rest, xs <> [] ->
     (fold_right (fun x n => S (JSON.size x + n)) O xs <= f)%nat ->
     parse_elements f (join 44 (List.map JSON.stringify xs) ++ 93 :: rest)
     = Some (xs, rest)) /\
  (forall ms rest, ms <> [] ->
     (fold_right (fun m n => S (JSON.size (snd m) + n)) O ms <= f)%nat ->
     parse_members f (join 44 (List.map member_text ms) ++ 125 :: rest)
     = Some (ms, rest)).
Proof.
  induction f as [|f (IHv & IHe & IHm)].
  - repeat split.
    + intros v rest H. destruct v; cbn in H; lia.
    + intros [|x xs] rest Hne H; [congruence | cbn in H; lia].
    + intros [|x xs] rest Hne H; [congruence | cbn in H; lia].
  - repeat split.
    + intros v rest Hsize Hrest.
      destruct v as [|[|]|m e|s|xs|ms]; try reflexivity.
      * now apply parse_value_number.
      * apply parse_value_string.
      * destruct xs as [|x xs]; [reflexivity|].
        cbn [JSON.stringify JSON.size] in *.
        cbn [app parse_value skip_ws is_ws N.eqb Pos.eqb orb].
        rewrite <- app_assoc. cbn [app].
        rewrite after_elements.
        rewrite IHe; [reflexivity | discriminate | lia].
      * destruct ms as [|m ms]; [reflexivity|].
        cbn [JSON.stringify JSON.size] in *.
        cbn [app parse_value skip_ws is_ws N.eqb Pos.eqb orb].
        rewrite <- app_assoc. cbn [app].
        change (fun m0 : jsstring * json =>
                  quote (fst m0) ++ 58 :: JSON.stringify (snd m0))
          with member_text.
        rewrite after_members.
        rewrite IHm; [reflexivity | discriminate | lia].
    + intros [|x [|y ys]] rest Hne Hsize; [congruence| |];
        cbn [fold_right] in Hsize; cbn [parse_elements].
      * rewrite map_cons, join_one.
        rewrite IHv by (try apply ends_ok_bracket; lia).
        reflexivity.
      * rewrite map_cons, (map_cons _ y), join_cons, <- (map_cons _ y).
        rewrite <- app_assoc. cbn [app].
        rewrite IHv by (try apply ends_ok_comma; lia).
        cbn [skip_ws is_ws N.eqb Pos.eqb orb].
        rewrite IHe; [reflexivity | discriminate | cbn [fold_right]; lia].
    + intros [|[k x] [|m' ms']] rest Hne Hsize; [congruence| |];
        cbn [fold_right snd] in Hsize; cbn [parse_members].
      * rewrite map_cons, join_one. unfold member_text. cbn [fst snd].
        rewrite <- app_assoc, after_quote. cbn [N.eqb Pos.eqb app].
        rewrite parse_chars_quote.
        cbn [skip_ws is_ws after N.eqb Pos.eqb orb].
        rewrite IHv by (try apply ends_ok_brace; lia).
        reflexivity.
      * rewrite map_cons, (map_cons _ m'), join_cons, <- (map_cons _ m').
        unfold member_text at 1. cbn [fst snd].
        rewrite <- !app_assoc, after_quote. cbn [N.eqb Pos.eqb app].
        rewrite parse_chars_quote.
        cbn [skip_ws is_ws after N.eqb Pos.eqb orb].
        rewrite IHv by (try apply ends_ok_comma; lia).
        cbn [skip_ws is_ws N.eqb Pos.eqb orb].
        rewrite IHm; [reflexivity | discriminate | cbn [fold_right]; lia].
Qed.

Local Open Scope nat_scope.

Lemma size_in x xs :
  In x xs -> JSON.size x <= fold_right (fun x n => S (JSON.size x + n)) O xs.
Proof.
  induction xs as [|y xs IH]; [contradiction|].
  intros [->|H]; cbn [fold_right]; [lia|]. apply IH in H. lia.
Qed.

Lemma size_in_members (m : jsstring * json) ms :
  In m ms ->
  JSON.size (snd m) <= fold_right (fun m n => S (JSON.size (snd m) + n)) O ms.
Proof.
  induction ms as [|y ms IH]; [contradiction|].
  intros [->|H]; cbn [fold_right]; [lia|]. apply IH in H. lia.
Qed.

Lemma elements_size_le xs :
  (forall x, In x xs -> JSON.size x <= 2 * List.length (JSON.stringify x)) ->
  fold_right (fun x n => S (JSON.size x + n)) O xs
  <= 2 * List.length (join 44%N (List.map JSON.stringify xs)) + 1.
Proof.
  induction xs as [|x xs IH]; intros H; [cbn; lia|].
  assert (Hx := H x (or_introl eq_refl)).
  assert (Hxs := IH (fun y Hy => H y (or_intror Hy))).
  destruct xs as [|y ys].
  - cbn [fold_right List.map join]. lia.
  - rewrite map_cons, (map_cons _ y), join_cons, <- (map_cons _ y).
    rewrite length_app. cbn [List.length].
    cbn [fold_right] in *. lia.
Qed.

Lemma members_size_le (ms : list (jsstring * json)) :
  (forall m, In m ms ->
     JSON.size (snd m) <= 2 * List.length (JSON.stringify (snd m))) ->
  fold_right (fun m n => S (JSON.size (snd m) + n)) O ms
  <= 2 * List.length (join 44%N (List.map member_text ms)) + 1.
Proof.
  assert (L : forall m, List.length (JSON.stringify (snd m))
                        <= List.length (member_text m)).
  { intros m. unfold member_text. rewrite length_app. cbn [List.length]. lia. }
  induction ms as [|x xs IH]; intros H; [cbn; lia|].
  assert (Hx := H x (or_introl eq_refl)).
  assert (Hxs := IH (fun y Hy => H y (or_intror Hy))).
  assert (Lx := L x).
  destruct xs as [|y ys].
  - cbn [fold_right List.map join]. lia.
  - rewrite map_cons, (map_cons _ y), join_cons, <- (map_cons _ y).
    rewrite length_app. cbn [List.length].
    cbn [fold_right] in *. lia.
Qed.

Lemma size_le_text n : forall v,
  JSON.size v <= n -> JSON.size v <= 2 * List.length (JSON.stringify v).
Proof.
  induction n as [|n IH]; intros v Hn.
  - destruct v; cbn in Hn; lia.
  - destruct (stringify_head v) as (c & tl & E & _).
    destruct v as [|b|m e|s|xs|ms];
      try (rewrite E; cbn [JSON.size List.length]; lia).
    + cbn [JSON.size JSON.stringify] in *. cbn [List.length].
      rewrite length_app. cbn [List.length].
      assert (H := elements_size_le xs).
      assert (forall x, In x xs -> JSON.size x <= 2 * List.length (JSON.stringify x)).
      { intros x Hx. apply IH. apply size_in in Hx. lia. }
      specialize (H H0). clear E. lia.
    + cbn [JSON.size JSON.stringify] in *. cbn [List.length].
      rewrite length_app. cbn [List.length].
      assert (H := members_size_le ms).
      assert (forall m, In m ms ->
                JSON.size (snd m) <= 2 * List.length (JSON.stringify (snd m))).
      { intros m Hm. apply IH. apply size_in_members in Hm. lia. }
      specialize (H H0). clear E.
      match type of H with
      | _ <= 2 * List.length ?l + 1 =>
          match goal with
          | |- _ <= 2 * S (List.length ?l' + 1) => change l' with l
          end
      end. lia.
Qed.

(** What [JSON.stringify] writes, [JSON.parse] reads back. *)
Lemma parse_stringify v : JSON.parse (JSON.stringify v) = Some v.
Proof.
  unfold JSON.parse.
  destruct (parse_stringify_fuel (2 * List.length (JSON.stringify v) + 2))
    as (H & _ & _).
  specialize (H v [] ltac:(pose proof (size_le_text _ v (le_n _)); lia) I).
  rewrite app_nil_r in H. rewrite H. reflexivity.
Qed.

Lemma parse_stringify_WireMessage m :
  JSON.parse (JSON.stringify (WireMessage_json m)) = Some (WireMessage_json m).
Proof. apply parse_stringify. Qed.

Lemma parse_stringify_description d :
  JSON.parse (JSON.stringify (toJSON d)) = Some (toJSON d).
Proof. apply parse_stringify. Qed.

End JsonFacts.

Local Open Scope nat_scope.

(** ** The receive path *)

Lemma onmessage_unparsable w data :
  JSON.parse data = None ->
  onmessage (DString data) w =
  Returned tt
    (set_comp (with_messages
                 (messages (comp w) ++ [peer_message (Some (JString data)) (now w)])
                 (comp w)) w).
Proof.
  intros H. unfold onmessage, try_catch, bind, JSON_parse.
  rewrite H. reflexivity.
Qed.

Lemma onmessage_binary w data :
  onmessage (DArrayBuffer data) w =
  Returned tt
    (set_comp
       (with_sendingRef
          (Some match sendingRef (comp w) with
                | Some entry =>
                    {| buffer := buffer entry ++ [data]; size := size entry |}
                | None => {| buffer := [data]; size := Some (JNumber 0 0) |}
                end)
          (comp w)) w).
Proof.
  unfold onmessage, bind, gets, update, modify.
  destruct (sendingRef (comp w)); reflexivity.
Qed.

Lemma onmessage_wire w m :
  onmessage (deliver bt_arraybuffer (wire m)) w =
  match m with
  | chat s =>
      Returned tt
        (set_comp (with_messages
                     (messages (comp w) ++ [peer_message (Some (JString s)) (now w)])
                     (comp w)) w)
  | file_meta meta =>
      Returned tt
        (set_comp (with_sendingRef
                     (Some {| buffer := [];
                              size := Some (JNumber (Z.of_N (meta_size meta)) 0) |})
                     (comp w)) w)
  | file_end =>
      match sendingRef (comp w) with
      | Some entry =>
          Returned tt
            (set_comp (with_sendingRef None (comp w))
               (emit (Download (concat (buffer entry)) (now w))
                  (emit (Toast Text.Fichier_recu (Some Text.Telechargement_lance))
                     w)))
      | None => Returned tt w
      end
  end.
Proof.
  unfold wire, deliver, onmessage, try_catch, bind, JSON_parse.
  rewrite parse_stringify_WireMessage.
  destruct m as [s | meta | ]; cbn.
  - reflexivity.
  - reflexivity.
  - destruct (sendingRef (comp w)); reflexivity.
Qed.

Lemma receive_chunks chunks : forall w entry,
  sendingRef (comp w) = Some entry ->
  receive bt_arraybuffer (List.map BinaryFrame chunks) w =
  Returned tt
    (set_comp (with_sendingRef
                 (Some {| buffer := buffer entry ++ chunks; size := size entry |})
                 (comp w)) w).
Proof.
  induction chunks as [|c chunks IH]; intros w entry H.
  - cbn. rewrite app_nil_r. destruct w as [c ? ? ? ?], c; cbn in *.
    subst. destruct entry; reflexivity.
  - cbn [List.map receive deliver]. unfold bind.
    rewrite onmessage_binary, H.
    erewrite IH by reflexivity. cbn. rewrite <- app_assoc. reflexivity.
Qed.

Lemma receive_app bt a b w :
  receive bt (a ++ b) w =
  match receive bt a w with
  | Returned _ w' => receive bt b w'
  | o => o
  end.
Proof.
  revert w. induction a as [|f a IH]; intros w; cbn [app receive].
  - reflexivity.
  - unfold bind. destruct (onmessage (deliver bt f) w); try reflexivity.
    apply IH.
Qed.

(** A whole transfer: meta, chunks, end. *)
Lemma receive_transfer meta chunks w :
  receive bt_arraybuffer
    (wire (file_meta meta) :: List.map BinaryFrame chunks ++ [wire file_end]) w =
  Returned tt
    (set_comp (with_sendingRef None (comp w))
       (emit (Download (concat chunks) (now w))
          (emit (Toast Text.Fichier_recu (Some Text.Telechargement_lance)) w))).
Proof.
  cbn [receive]. unfold bind at 1. rewrite onmessage_wire.
  rewrite receive_app. erewrite receive_chunks by reflexivity.
  cbn [receive]. unfold bind. rewrite onmessage_wire. reflexivity.
Qed.

(** Chunks delivered as blobs leave the receiver as it was. *)
Lemma receive_blobs chunks : forall w,
  receive bt_blob (List.map BinaryFrame chunks) w = Returned tt w.
Proof.
  induction chunks as [|c chunks IH]; intros w; [reflexivity|].
  cbn [List.map receive deliver]. unfold bind. cbn [onmessage ret]. apply IH.
Qed.

Lemma receive_transfer_blob meta chunks w :
  receive bt_blob
    (wire (file_meta meta) :: List.map BinaryFrame chunks ++ [wire file_end]) w =
  Returned tt
    (set_comp (with_sendingRef None (comp w))
       (emit (Download [] (now w))
          (emit (Toast Text.Fichier_recu (Some Text.Telechargement_lance)) w))).
Proof.
  cbn [receive]. unfold bind at 1.
  change (deliver bt_blob (wire (file_meta meta)))
    with (deliver bt_arraybuffer (wire (file_meta meta))).
  rewrite onmessage_wire, receive_app, receive_blobs.
  cbn [receive]. unfold bind.
  change (deliver bt_blob (wire file_end))
    with (deliver bt_arraybuffer (wire file_end)).
  rewrite onmessage_wire. reflexivity.
Qed.

(** A whole transfer, as the channel delivers it: what the receiver shows
    afterwards. *)
Lemma receive_transfer_by_delivery bt meta chunks w :
  exists w',
    receive bt
      (wire (file_meta meta) :: List.map BinaryFrame chunks ++ [wire file_end]) w =
    Returned tt w' /\
    trace w' =
    trace w ++ [Toast Text.Fichier_recu (Some Text.Telechargement_lance);
                Download match bt with
                         | bt_arraybuffer => concat chunks
                         | bt_blob => []
                         end (now w)] /\
    sendingRef (comp w') = None /\
    messages (comp w') = messages (comp w) /\
    same_elsewhere w w'.
Proof.
  destruct bt; eexists;
    (split; [first [apply receive_transfer | apply receive_transfer_blob]|]);
    cbn; rewrite <- app_assoc; repeat split.
Qed.

(** ** The send path *)

Lemma chunkSize_pos : 0 < chunkSize.
Proof. unfold chunkSize. lia. Qed.

Lemma emits_nil w : emits [] w = w.
Proof. destruct w. unfold emits. cbn. now rewrite app_nil_r. Qed.

Lemma emits_emits a b w : emits b (emits a w) = emits (a ++ b) w.
Proof. unfold emits. cbn. now rewrite app_assoc. Qed.

Lemma emit_emits e w : emit e w = emits [e] w.
Proof. reflexivity. Qed.

(** The loop sends exactly the slices of [chunks_from], in order. *)
Lemma send_chunks_run ch buf : forall fuel i w,
  is_open ch = true ->
  send_chunks fuel ch buf i w =
  Returned tt
    (emits (List.map (fun c => Send (BinaryFrame c)) (chunks_from fuel buf i)) w).
Proof.
  intros fuel. induction fuel as [|f IH]; intros i w Hopen.
  - cbn. now rewrite emits_nil.
  - cbn [send_chunks chunks_from].
    destruct (i <? List.length buf).
    + unfold bind, send, yield, ret, perform, modify. rewrite Hopen.
      rewrite IH by assumption. rewrite emit_emits, emits_emits. reflexivity.
    + cbn. now rewrite emits_nil.
Qed.

(** With the byte length as fuel the loop covers the buffer: the slices put
    end to end are the bytes from the starting offset on. *)
Lemma concat_chunks_from buf : forall fuel i,
  List.length buf - i <= fuel ->
  concat (chunks_from fuel buf i) = skipn i buf.
Proof.
  assert (Hc := chunkSize_pos).
  intros fuel. induction fuel as [|f IH]; intros i Hf.
  - cbn. symmetry. apply skipn_all2. lia.
  - cbn [chunks_from].
    destruct (Nat.ltb_spec i (List.length buf)) as [L|G].
    + cbn [concat]. rewrite IH by lia. unfold slice.
      replace (i + chunkSize - i) with chunkSize by lia.
      rewrite Nat.add_comm, <- skipn_skipn. apply firstn_skipn.
    + cbn. symmetry. apply skipn_all2. lia.
Qed.


Lemma sendFile_run file ch w :
  dataChannelRef (comp w) = Some ch ->
  readyState ch = open ->
  sendFile (Some file) w =
  Returned tt
    (emits
       (Send (wire (file_meta (file_meta_of file)))
        :: List.map (fun c => Send (BinaryFrame c))
             (chunks_from (List.length (file_bytes file)) (file_bytes file) 0)
        ++ [Send (wire file_end); Toast Text.Fichier_envoye None]) w).
Proof.
  intros Href Hready.
  assert (Hopen : is_open ch = true) by (unfold is_open; now rewrite Hready).
  unfold sendFile, bind, gets. rewrite Href, Hopen. cbn [negb].
  unfold send. rewrite Hopen. unfold perform, modify, toast, perform, modify.
  rewrite send_chunks_run by assumption.
  rewrite !emit_emits, !emits_emits. reflexivity.
Qed.

Lemma effects_of_trace {A} (m : M A) w es :
  trace (world_of (m w)) = trace w ++ es -> effects_of m w = es.
Proof.
  intros H. unfold effects_of. rewrite H.
  rewrite skipn_app, Nat.sub_diag, skipn_all. reflexivity.
Qed.

Lemma sent_app a b : sent (a ++ b) = sent a ++ sent b.
Proof.
  induction a as [|e a IH]; [reflexivity|].
  destruct e; cbn; rewrite ?IH; reflexivity.
Qed.

Lemma sent_binary chunks :
  sent (List.map (fun c => Send (BinaryFrame c)) chunks) = List.map BinaryFrame chunks.
Proof. induction chunks; cbn; congruence. Qed.




(** C5. A file-meta frame that arrives while a transfer is open replaces
    the open transfer by an empty one, and the file finalized by the next
    file-end is made of the chunks received after that file-meta only. *)
Theorem file_meta_discards_prior (w : World) (old : Transfer) (meta : FileMeta)
    (chunks : list (list byte)) :
  let w0 := set_comp (with_sendingRef (Some old) (comp w)) w in
  onmessage (deliver bt_arraybuffer (wire (file_meta meta))) w0 =
  Returned tt
    (set_comp (with_sendingRef
                 (Some {| buffer := [];
                          size := Some (JNumber (Z.of_N (meta_size meta)) 0) |})
                 (comp w)) w) /\
  receive bt_arraybuffer
    (wire (file_meta meta) :: List.map BinaryFrame chunks ++ [wire file_end]) w0 =
  Returned tt
    (set_comp (with_sendingRef None (comp w))
       (emit (Download (concat chunks) (now w))
          (emit (Toast Text.Fichier_recu (Some Text.Telechargement_lance)) w))).
Proof.
  intros w0. split.
  - rewrite onmessage_wire. reflexivity.
  - rewrite receive_transfer. reflexivity.
Qed.

(** C6. A text frame that [JSON.parse] rejects is not an error for the
    receiver: the handler returns, and the log grows by one entry, whose
    origin is the peer and whose text is the whole text of the frame.  The
    inbound transfer, the connection and the rest of the session are left
    as they were, and nothing is notified. *)
Theorem unparsable_text_is_chat (w : World) (data : jsstring) :
  JSON.parse data = None ->
  exists w',
    onmessage (DString data) w = Returned tt w' /\
    messages (comp w') =
    messages (comp w)
    ++ [{| from := peer; text := Some (JString data); at_ := now w |}] /\
    sendingRef (comp w') = sendingRef (comp w) /\
    trace w' = trace w /\
    same_elsewhere w w'.
Proof.
  intros H. eexists. split; [apply onmessage_unparsable, H|].
  cbn. repeat split.
Qed.

Lemma unparsable_text_is_chat_witness :
  JSON.parse (js "hello") = None /\
  exists w',
    onmessage (DString (js "hello")) initial_world = Returned tt w' /\
    messages (comp w') =
    messages (comp initial_world)
    ++ [{| from := peer; text := Some (JString (js "hello"));
           at_ := now initial_world |}] /\
    sendingRef (comp w') = sendingRef (comp initial_world) /\
    trace w' = trace initial_world /\
    same_elsewhere initial_world w'.
Proof.
  split; [reflexivity|].
  apply (unparsable_text_is_chat initial_world (js "hello")). reflexivity.
Defined.




(** C10, as stated, fails: the text null parses, carries none of the three
    tags, and yet is appended to the log, because reading [t] of [null]
    throws inside the [try] block. *)
Lemma null_frame_is_logged :
  JSON.parse (js "null") = Some JNull /\
  other_tag JNull /\
  onmessage (DString (js "null")) initial_world =
  Returned tt
    (set_comp (with_messages [peer_message (Some (JString (js "null"))) 0]
                 initial_component) initial_world) /\
  onmessage (DString (js "null")) initial_world <> Returned tt initial_world.
Proof.
  repeat split; try reflexivity. discriminate.
Qed.

(** C10, amended. A text frame that parses to a value other than [null]
    whose tag is none of chat, file-meta and file-end is dropped: the log,
    the open transfer and the rest of the world are left as they were. *)
Theorem other_tag_is_dropped (w : World) (data : jsstring) (msg : json) :
  JSON.parse data = Some msg ->
  msg <> JNull ->
  other_tag msg ->
  onmessage (DString data) w = Returned tt w.
Proof.
  intros Hparse Hnull (Hchat & Hmeta & Hend).
  unfold onmessage, try_catch, bind, JSON_parse. rewrite Hparse.
  destruct msg; try contradiction; cbn in *;
    rewrite ?Hchat, ?Hmeta, ?Hend; reflexivity.
Qed.

Lemma other_tag_is_dropped_witness :
  (JSON.parse (js "42") = Some (JNumber 42 0) /\
   onmessage (DString (js "42")) initial_world = Returned tt initial_world) /\
  (JSON.parse (jsq "{'t':'other'}") = Some (JObject [(js "t", JString (js "other"))]) /\
   onmessage (DString (jsq "{'t':'other'}")) initial_world = Returned tt initial_world).
Proof.
  split; (split; [reflexivity|]).
  - apply (other_tag_is_dropped initial_world (js "42") (JNumber 42 0));
      [reflexivity | discriminate | repeat split].
  - apply (other_tag_is_dropped initial_world (jsq "{'t':'other'}")
             (JObject [(js "t", JString (js "other"))]));
      [reflexivity | discriminate | repeat split].
Defined.

(** ** The chat log *)

Lemma extends_log_ret {A} (a : A) : extends_log (ret a).
Proof. intros w. exists []. cbn. now rewrite app_nil_r. Qed.

Lemma extends_log_throw {A} e : extends_log (@throw A e).
Proof. intros w. exists []. cbn. now rewrite app_nil_r. Qed.

Lemma extends_log_bind {A B} (m : M A) (k : A -> M B) :
  extends_log m -> (forall a, extends_log (k a)) -> extends_log (bind m k).
Proof.
  intros Hm Hk w. unfold bind. destruct (Hm w) as [n1 H1].
  destruct (m w) as [a w1 | e w1 | w1]; cbn in H1.
  - destruct (Hk a w1) as [n2 H2]. exists (n1 ++ n2).
    now rewrite H2, H1, app_assoc.
  - now exists n1.
  - now exists n1.
Qed.

Lemma extends_log_try {A} (m : M A) (h : error -> M A) :
  extends_log m -> (forall e, extends_log (h e)) -> extends_log (try_catch m h).
Proof.
  intros Hm Hh w. unfold try_catch. destruct (Hm w) as [n1 H1].
  destruct (m w) as [a w1 | e w1 | w1]; cbn in H1.
  - now exists n1.
  - destruct (Hh e w1) as [n2 H2]. exists (n1 ++ n2).
    now rewrite H2, H1, app_assoc.
  - now exists n1.
Qed.

(** A step that leaves the component's messages alone. *)
Lemma extends_log_same {A} (m : M A) :
  (forall w, messages (comp (world_of (m w))) = messages (comp w)) ->
  extends_log m.
Proof. intros H w. exists []. now rewrite H, app_nil_r. Qed.

Lemma extends_log_gets {A} (f : World -> A) : extends_log (gets f).
Proof. now apply extends_log_same. Qed.

Lemma extends_log_perform e : extends_log (perform e).
Proof. now apply extends_log_same. Qed.

Lemma extends_log_await {A} (pick : pc_event -> option (error + A)) :
  extends_log (await pick).
Proof.
  apply extends_log_same. intros w. unfold await.
  destruct (settle pick (pc w) (script w)) as [[[[e|a]|] p] s]; reflexivity.
Qed.

Lemma extends_log_wait : extends_log waitForIceGathering.
Proof.
  apply extends_log_same. intros w. unfold waitForIceGathering.
  destruct (iceGatheringState (pc w)); try reflexivity;
    destruct (check (pc w) (script w)) as [[[|] p] s]; reflexivity.
Qed.

Lemma extends_log_append x : extends_log (setMessages (fun m => m ++ [x])).
Proof. intros w. now exists [x]. Qed.

Lemma extends_log_send ch f : extends_log (send ch f).
Proof.
  unfold send. destruct (is_open ch);
    [apply extends_log_perform | apply extends_log_throw].
Qed.

Lemma extends_log_send_chunks ch buf fuel : forall i,
  extends_log (send_chunks fuel ch buf i).
Proof.
  induction fuel as [|f IH]; intros i; cbn [send_chunks].
  - apply extends_log_ret.
  - destruct (i <? List.length buf); [|apply extends_log_ret].
    apply extends_log_bind; [apply extends_log_send|intros _].
    apply extends_log_bind; [apply extends_log_ret|intros _]. apply IH.
Qed.

Ltac log_step :=
  first
    [ apply extends_log_bind; [|intro]
    | apply extends_log_try; [|intro]
    | apply extends_log_ret
    | apply extends_log_throw
    | apply extends_log_gets
    | apply extends_log_perform
    | apply extends_log_await
    | apply extends_log_wait
    | apply extends_log_append
    | apply extends_log_send
    | apply extends_log_send_chunks
    | (apply extends_log_same; intro; reflexivity)
    | match goal with
      | |- extends_log (match ?x with _ => _ end) => destruct x
      | |- extends_log (if ?x then _ else _) => destruct x
      end ].

Lemma extends_log_handle e : extends_log (handle e).
Proof.
  destruct e; cbn [handle];
    unfold createOffer, applyAnswer, acceptOffer, sendChat, sendFile, onopen,
      onmessage, onconnectionstatechange, ondatachannel,
      createDataChannelIfNeeded, pc_createDataChannel, pc_createOffer,
      pc_createAnswer, pc_setLocalDescription, pc_setRemoteDescription,
      JSON_parse, prop, toast, console_error, Date_now,
      setLocalOffer, setLocalAnswer, setRemoteAnswer, setRemoteOffer,
      setConnected, setOutgoingText;
    repeat log_step.
Qed.

Lemma sendChat_run w ch s :
  dataChannelRef (comp w) = Some ch ->
  readyState ch = open ->
  truthy (trim s) = true ->
  (setOutgoingText s ;; sendChat)%M w =
  Returned tt
    (set_comp (with_outgoingText []
                 (with_messages (messages (comp w) ++ [my_message s (now w)])
                    (comp w)))
       (emit (Send (wire (chat s))) w)).
Proof.
  intros Href Hready Htext.
  assert (Hopen : is_open ch = true) by (unfold is_open; now rewrite Hready).
  unfold sendChat, setOutgoingText, bind, update, modify, gets.
  cbn -[trim truthy JSON.stringify]. rewrite Href, Hopen.
  cbn -[trim truthy JSON.stringify]. rewrite Htext.
  cbn -[JSON.stringify]. unfold send. rewrite Hopen. reflexivity.
Qed.

(** C9. With the channel open, sending a and then b puts exactly these two
    messages, in this order and marked as local, at the end of the log, each
    in the very handler that sends it; and no handler of the component ever
    does anything to the log but append to it. *)
Theorem chat_log_order (w : World) (ch : RTCDataChannel) :
  dataChannelRef (comp w) = Some ch ->
  readyState ch = open ->
  let w1 := world_of ((setOutgoingText (js "a") ;; sendChat)%M w) in
  let w2 := world_of ((setOutgoingText (js "b") ;; sendChat)%M w1) in
  messages (comp w1) = messages (comp w) ++ [my_message (js "a") (now w)] /\
  messages (comp w2) =
    messages (comp w) ++ [my_message (js "a") (now w); my_message (js "b") (now w)] /\
  (messages (comp w) = [] ->
   log (comp w2) = [(Some (JString (js "a")), me); (Some (JString (js "b")), me)]) /\
  sent (effects_of (setOutgoingText (js "a") ;; sendChat)%M w) = [wire (chat (js "a"))] /\
  (forall e w0, exists new,
     messages (comp (world_of (handle e w0))) = messages (comp w0) ++ new).
Proof.
  intros Href Hready w1 w2.
  assert (H1 := sendChat_run w ch (js "a") Href Hready eq_refl).
  assert (E1 : w1 = world_of (Returned tt
    (set_comp (with_outgoingText []
                 (with_messages (messages (comp w) ++ [my_message (js "a") (now w)])
                    (comp w)))
       (emit (Send (wire (chat (js "a")))) w)))).
  { unfold w1. now rewrite H1. }
  cbn [world_of] in E1.
  assert (Href1 : dataChannelRef (comp w1) = Some ch) by (rewrite E1; exact Href).
  assert (H2 := sendChat_run w1 ch (js "b") Href1 Hready eq_refl).
  assert (M2 : messages (comp w2) =
    messages (comp w) ++ [my_message (js "a") (now w); my_message (js "b") (now w)]).
  { unfold w2. rewrite H2. cbn [world_of comp set_comp with_outgoingText
      with_messages messages]. rewrite E1. cbn. now rewrite <- app_assoc. }
  repeat split.
  - rewrite E1. reflexivity.
  - exact M2.
  - intros Hnil. unfold log. rewrite M2, Hnil. reflexivity.
  - erewrite effects_of_trace by (rewrite H1; reflexivity). reflexivity.
  - intros e w0. apply extends_log_handle.
Qed.

Lemma chat_log_order_witness :
  let w := connected_world in
  let w1 := world_of ((setOutgoingText (js "a") ;; sendChat)%M w) in
  let w2 := world_of ((setOutgoingText (js "b") ;; sendChat)%M w1) in
  messages (comp w1) = messages (comp w) ++ [my_message (js "a") (now w)] /\
  messages (comp w2) =
    messages (comp w) ++ [my_message (js "a") (now w); my_message (js "b") (now w)] /\
  (messages (comp w) = [] ->
   log (comp w2) = [(Some (JString (js "a")), me); (Some (JString (js "b")), me)]) /\
  sent (effects_of (setOutgoingText (js "a") ;; sendChat)%M w) = [wire (chat (js "a"))] /\
  (forall e w0, exists new,
     messages (comp (world_of (handle e w0))) = messages (comp w0) ++ new).
Proof.
  apply (chat_log_order connected_world open_channel); reflexivity.
Defined.

(** ** Negotiation *)

Lemma toJSON_inj d d' : toJSON d = toJSON d' -> d = d'.
Proof.
  destruct d as [t s], d' as [t' s']. unfold toJSON. cbn [type sdp].
  intros H. injection H as Ht Hs. subst s'. f_equal.
  destruct t, t'; first [reflexivity | discriminate Ht].
Qed.

Lemma applyAnswer_run w desc :
  JSON.parse (remoteAnswer (comp w)) = Some desc ->
  applyAnswer w =
  match settle applied (pc w) (script w) with
  | (Some (inr _), p, s) =>
      Returned tt
        (emit (Toast Text.Reponse_appliquee None)
           (set_transport p s (emit (SetRemoteDescription desc) w)))
  | (Some (inl e), p, s) =>
      Returned tt
        (emit (Toast Text.Erreur (Some Text.Reponse_invalide))
           (emit (ConsoleError e)
              (set_transport p s (emit (SetRemoteDescription desc) w))))
  | (None, p, s) =>
      Pending (set_transport p s (emit (SetRemoteDescription desc) w))
  end.
Proof.
  intros H.
  unfold applyAnswer, pc_setRemoteDescription, try_catch, bind, gets, JSON_parse,
    await.
  rewrite H. cbn.
  destruct (settle applied (pc w) (script w)) as [[[[e|[]]|] p] s]; reflexivity.
Qed.

Lemma applyRemoteAnswer_eq text w :
  applyRemoteAnswer text w =
  applyAnswer (set_comp (with_remoteAnswer text (comp w)) w).
Proof. reflexivity. Qed.

(** C2. The blob written for a local description parses back to that
    description: decoding the encoded text of [d] yields the type and sdp of
    [d], and it is this value that a peer who pastes the blob hands to its
    transport. *)
Theorem descriptor_round_trip (d : RTCSessionDescription) :
  decode (encode d) = Some (toJSON d) /\
  (forall d', decode (encode d) = decode (encode d') -> d = d') /\
  (forall w, exists rest,
     effects_of (applyRemoteAnswer (encode d)) w =
     SetRemoteDescription (toJSON d) :: rest).
Proof.
  assert (R : forall x, decode (encode x) = Some (toJSON x)).
  { intros x. apply parse_stringify_description. }
  repeat split.
  - apply R.
  - intros d' H. rewrite !R in H. apply toJSON_inj. congruence.
  - intros w.
    set (w1 := set_comp (with_remoteAnswer (encode d) (comp w)) w).
    assert (H := applyAnswer_run w1 (toJSON d) (R d)).
    destruct (settle applied (pc w1) (script w1)) as [[[[e|[]]|] p] s];
      eexists; apply effects_of_trace; rewrite applyRemoteAnswer_eq;
      fold w1; rewrite H; cbn [world_of trace emit set_transport set_comp w1];
      rewrite <- ?app_assoc; reflexivity.
Qed.

(** C3, as stated, fails: on a fresh session, with no offer created, a
    pasted text that parses is decoded and handed to the transport, and when
    the transport accepts it the handler reports success. *)
Lemma applyRemoteAnswer_before_offer :
  let d := {| type := offer; sdp := js "v=0" |} in
  let w := set_transport (pc initial_world) [Applied] initial_world in
  localOffer (comp w) = [] /\ trace w = [] /\
  effects_of (applyRemoteAnswer (encode d)) w =
  [SetRemoteDescription (toJSON d); Toast Text.Reponse_appliquee None].
Proof. repeat split. Qed.

(** C3, amended. [applyRemoteAnswer] does not look at the state of the
    session: whenever the pasted text parses, before an offer was created as
    well as after, the parsed descriptor is passed to the transport's
    [setRemoteDescription]; the handler reports an error only if the
    transport rejects it, and stays suspended while the transport has not
    answered. *)
Theorem applyRemoteAnswer_unguarded (w : World) (text : jsstring) (desc : json) :
  JSON.parse text = Some desc ->
  let w1 := emit (SetRemoteDescription desc)
              (set_comp (with_remoteAnswer text (comp w)) w) in
  applyRemoteAnswer text w =
  match settle applied (pc w) (script w) with
  | (Some (inr _), p, s) =>
      Returned tt (emit (Toast Text.Reponse_appliquee None) (set_transport p s w1))
  | (Some (inl e), p, s) =>
      Returned tt
        (emit (Toast Text.Erreur (Some Text.Reponse_invalide))
           (emit (ConsoleError e) (set_transport p s w1)))
  | (None, p, s) => Pending (set_transport p s w1)
  end.
Proof.
  intros H w1. rewrite applyRemoteAnswer_eq.
  rewrite (applyAnswer_run _ desc) by exact H. reflexivity.
Qed.

Lemma applyRemoteAnswer_unguarded_witness :
  let text := jsq "{'type':'answer','sdp':''}" in
  let desc := JObject [(js "type", JString (js "answer")); (js "sdp", JString [])] in
  JSON.parse text = Some desc /\
  applyRemoteAnswer text initial_world =
  Pending (emit (SetRemoteDescription desc)
             (set_comp (with_remoteAnswer text initial_component) initial_world)).
Proof.
  split; [reflexivity|].
  apply (applyRemoteAnswer_unguarded initial_world
           (jsq "{'type':'answer','sdp':''}")
           (JObject [(js "type", JString (js "answer")); (js "sdp", JString [])])).
  reflexivity.
Defined.

(** C4. A pasted text that does not parse makes neither handler throw:
    each logs the SyntaxError, shows the error notification, and leaves the
    transport and the session as they were; nothing is passed to the
    transport. *)
Theorem malformed_descriptor (w : World) (text : jsstring) :
  JSON.parse text = None ->
  applyRemoteAnswer text w =
  Returned tt
    (emit (Toast Text.Erreur (Some Text.Reponse_invalide))
       (emit (ConsoleError SyntaxError)
          (set_comp (with_remoteAnswer text (comp w)) w))) /\
  acceptRemoteOffer text w =
  Returned tt
    (emit (Toast Text.Erreur (Some Text.Offre_invalide))
       (emit (ConsoleError SyntaxError)
          (set_comp (with_remoteOffer text (comp w)) w))).
Proof.
  intros H. split.
  - unfold applyRemoteAnswer, applyAnswer, try_catch, bind, setRemoteAnswer,
      update, modify, gets, JSON_parse. cbn. rewrite H. reflexivity.
  - unfold acceptRemoteOffer, acceptOffer, try_catch, bind, setRemoteOffer,
      update, modify, gets, JSON_parse. cbn. rewrite H. reflexivity.
Qed.

Lemma malformed_descriptor_witness :
  JSON.parse (js "v=0 o=- 46117") = None /\
  applyRemoteAnswer (js "v=0 o=- 46117") initial_world =
  Returned tt
    (emit (Toast Text.Erreur (Some Text.Reponse_invalide))
       (emit (ConsoleError SyntaxError)
          (set_comp (with_remoteAnswer (js "v=0 o=- 46117") (comp initial_world))
             initial_world))) /\
  acceptRemoteOffer (js "v=0 o=- 46117") initial_world =
  Returned tt
    (emit (Toast Text.Erreur (Some Text.Offre_invalide))
       (emit (ConsoleError SyntaxError)
          (set_comp (with_remoteOffer (js "v=0 o=- 46117") (comp initial_world))
             initial_world))).
Proof.
  split; [reflexivity|].
  apply (malformed_descriptor initial_world (js "v=0 o=- 46117")). reflexivity.
Defined.

(** ** Creating the offer *)

Lemma check_complete s : forall p p' s',
  check p s = (true, p', s') -> iceGatheringState p' = ice_complete.
Proof.
  induction s as [|ev s IH]; intros p p' s' H; cbn [check] in H.
  - discriminate.
  - destruct ev; try (apply IH in H; exact H).
    destruct (iceGatheringState (observe (IceGatheringStateChange s0) p)) eqn:E;
      try (apply IH in H; exact H).
    injection H as <- _. exact E.
Qed.

(** When [waitForIceGathering] returns, gathering is complete, and nothing
    but the transport has moved. *)
Lemma waitForIceGathering_returns w w' :
  waitForIceGathering w = Returned tt w' ->
  iceGatheringState (pc w') = ice_complete /\
  comp w' = comp w /\ trace w' = trace w.
Proof.
  unfold waitForIceGathering. intros H.
  destruct (iceGatheringState (pc w)) eqn:E.
  1, 2: destruct (check (pc w) (script w)) as [[[|] p] s] eqn:C;
        [injection H as <-; cbn; repeat split; eapply check_complete; exact C
        | discriminate H ].
  injection H as <-. auto.
Qed.

Lemma waitForIceGathering_never_throws w e w' :
  waitForIceGathering w <> Thrown e w'.
Proof.
  unfold waitForIceGathering.
  destruct (iceGatheringState (pc w)); try discriminate;
    destruct (check (pc w) (script w)) as [[[|] p] s]; discriminate.
Qed.

Lemma waitForIceGathering_frame w :
  comp (world_of (waitForIceGathering w)) = comp w /\
  trace (world_of (waitForIceGathering w)) = trace w.
Proof.
  unfold waitForIceGathering.
  destruct (iceGatheringState (pc w)); try (split; reflexivity);
    destruct (check (pc w) (script w)) as [[[|] p] s]; split; reflexivity.
Qed.

Lemma not_in_split {A} (x : A) l pre post :
  ~ In x l -> l <> pre ++ x :: post.
Proof. intros H E. apply H. rewrite E. apply in_elt. Qed.

(** The effects of the steps that precede the wait, given the effects [chan]
    of [createDataChannelIfNeeded]. *)
Ltac channel_first :=
  intros pre post H;
  first
    [ left; congruence
    | exfalso; revert H; apply not_in_split; cbn; intuition discriminate
    | destruct pre as [|? pre]; cbn in H;
      [ discriminate H
      | right; left; injection H as H _; symmetry; exact H ] ].

(** C8. Creating the offer asks the transport for the offer only when a
    data channel exists, created either earlier or just before in the same
    call; and the blob is written only by a run that found candidate
    gathering complete: then the blob is the serialization of the local
    description as it stands with gathering complete.  Every other run,
    suspended or failed, leaves the blob as it was. *)
Theorem createOffer_order (w : World) :
  let w' := world_of (startAsInitiator w) in
  exists new,
    trace w' = trace w ++ new /\
    (forall pre post, new = pre ++ CreateOffer :: post ->
       dataChannelRef (comp w) <> None \/ In (CreateDataChannel (js "data")) pre) /\
    (localOffer (comp w') = localOffer (comp w) /\
     ~ In (Toast Text.Offre_prete (Some Text.Copiez)) new
     \/
     startAsInitiator w = Returned tt w' /\
     iceGatheringState (pc w') = ice_complete /\
     localOffer (comp w') = stringify_description (localDescription (pc w')) /\
     exists pre o,
       new = pre ++ [CreateOffer; SetLocalDescription o;
                     Toast Text.Offre_prete (Some Text.Copiez)]).
Proof.
  unfold startAsInitiator, createOffer, createDataChannelIfNeeded,
    pc_createDataChannel, pc_createOffer, pc_setLocalDescription.
  unfold try_catch, bind, gets, await, perform, update, modify, toast,
    console_error, setLocalOffer, update, perform, modify, throw, ret.
  cbn [comp pc script trace now emit set_comp set_transport].
  destruct (dataChannelRef (comp w)) as [ch|] eqn:Href;
    [|destruct (pcClosed (pc w)) eqn:Hclosed];
    cbn [comp pc script trace now emit set_comp set_transport world_of].
  all: try match goal with
       | |- context [settle created ?p ?s] =>
           destruct (settle created p s) as [[[[e|o]|] p1] s1]
       end;
    cbn [comp pc script trace now emit set_comp set_transport world_of].
  all: try match goal with
       | |- context [settle applied ?p ?s] =>
           destruct (settle applied p s) as [[[[e|[]]|] p2] s2]
       end;
    cbn [comp pc script trace now emit set_comp set_transport world_of].
  all: try match goal with
       | |- context [waitForIceGathering ?x] =>
           let W := fresh "W" in
           let F := fresh "F" in
           destruct (waitForIceGathering_frame x) as (Wcomp & Wtrace);
           destruct (waitForIceGathering x) as [[] w1 | e w1 | w1] eqn:W;
           [ apply waitForIceGathering_returns in W;
             destruct W as (Wice & _ & _)
           | exfalso; exact (waitForIceGathering_never_throws _ _ _ W)
           | ]
       end.
  all: cbn [comp pc script trace now emit set_comp set_transport world_of
            with_localOffer with_dataChannelRef localOffer observe] in *.
  all: rewrite <- ?app_assoc; cbn [app].
  all: try (rewrite Wtrace, Wcomp; cbn [trace comp localOffer]).
  all: eexists; split; [rewrite <- ?app_assoc; reflexivity|].
  all: split; [channel_first|].
  all: first
    [ left; split; [reflexivity | cbn; intuition discriminate]
    | right; repeat split; try reflexivity; try exact Wice;
      first [ exists []; eexists; reflexivity
            | exists [CreateDataChannel (js "data")]; eexists; reflexivity ] ].
Qed.

(** ** Runs *)

Example parse_hello : JSON.parse (js "hello") = None.
Proof. reflexivity. Qed.

Example parse_42 : JSON.parse (js "42") = Some (JNumber 42 0).
Proof. reflexivity. Qed.

Example parse_other :
  JSON.parse (jsq "{'t':'other'}") = Some (JObject [(js "t", JString (js "other"))]).
Proof. reflexivity. Qed.

Example stringify_chat :
  JSON.stringify (WireMessage_json (chat (js "a"))) = jsq "{'t':'chat','text':'a'}".
Proof. reflexivity. Qed.

Example stringify_file_meta :
  JSON.stringify
    (WireMessage_json
       (file_meta {| meta_name := js "a.txt"; meta_size := 100000;
                     meta_type := js "text/plain" |})) =
  jsq "{'t':'file-meta','meta':{'name':'a.txt','size':100000,'type':'text/plain'}}".
Proof. reflexivity. Qed.

(** The number of chunks for files of 0, 100, 16384 and 100000 bytes. *)
Example chunk_counts :
  List.map (fun n => List.length (chunks_from n (repeat Byte.x00 n) 0))
           [0; 100; 16384; 100000] = [0; 1; 1; 7].
Proof. vm_compute. reflexivity. Qed.

(** A binary frame delivered as a Blob is not an [ArrayBuffer]: the handler
    takes neither branch. *)
Lemma onmessage_blob w data : onmessage (DBlob data) w = Returned tt w.
Proof. reflexivity. Qed.

(** A file-meta message without its [meta] member makes the handler throw
    inside the [try] block; the text ends up in the log. *)
Example file_meta_without_meta :
  onmessage (DString (jsq "{'t':'file-meta'}")) initial_world =
  Returned tt
    (set_comp (with_messages
                 [peer_message (Some (JString (jsq "{'t':'file-meta'}"))) 0]
                 initial_component) initial_world).
Proof. reflexivity. Qed.

(** A run of [createOffer] in which the transport creates the offer,
    applies it and gathers candidates to the end: the blob is the
    description with its candidates. *)
Example createOffer_completes :
  let o := {| type := offer; sdp := js "v=0" |} in
  let o' := {| type := offer; sdp := js "v=0 a=candidate" |} in
  let w := set_transport (pc initial_world)
             [Created o; Applied; IceGatheringStateChange ice_gathering;
              LocalDescriptionChange o'; IceGatheringStateChange ice_complete]
             initial_world in
  let w' := world_of (createOffer w) in
  localOffer (comp w') = encode o' /\
  trace w' = [CreateDataChannel (js "data"); CreateOffer; SetLocalDescription o;
              Toast Text.Offre_prete (Some Text.Copiez)] /\
  script w' = [].
Proof. repeat split. Qed.

(** A run in which gathering does not come to its end: the handler stays
    suspended and no blob is written. *)
Example createOffer_suspended :
  let o := {| type := offer; sdp := js "v=0" |} in
  let w := set_transport (pc initial_world)
             [Created o; Applied; IceGatheringStateChange ice_gathering]
             initial_world in
  exists w', createOffer w = Pending w' /\ localOffer (comp w') = [].
Proof. eexists. split; reflexivity. Qed.

(** The same exchange seen from both ends: what the host's [createOffer]
    writes, the guest's [acceptOffer] hands to its transport. *)
Example offer_reaches_guest :
  let o := {| type := offer; sdp := js "v=0" |} in
  let host := set_transport (pc initial_world)
                [Created o; Applied; IceGatheringStateChange ice_complete]
                initial_world in
  let blob := localOffer (comp (world_of (createOffer host))) in
  effects_of (acceptRemoteOffer blob) initial_world =
  [SetRemoteDescription (toJSON o)].
Proof. reflexivity. Qed.

(** [onconnectionstatechange] follows the transport. *)
Example connection_states :
  let at_state st :=
    set_transport
      {| iceGatheringState := ice_complete; connectionState := st;
         localDescription := None; pcClosed := false |} [] initial_world in
  connected (comp (world_of (onconnectionstatechange (at_state conn_connected))))
    = true /\
  connected (comp (world_of (onconnectionstatechange (at_state conn_disconnected))))
    = false.
Proof. repeat split. Qed.

(** * Further properties of the component *)

(** ** Waiting for candidate gathering *)

Lemma check_no_complete s : forall p,
  ~ In gathering_done s ->
  check p s = (false, observe_all s p, []).
Proof.
  induction s as [|ev s IH]; intros p H; [reflexivity|].
  cbn [check observe_all fold_left].
  assert (Hs : ~ In gathering_done s) by (intros F; apply H; now right).
  destruct ev as [st| | | |]; try (apply IH; exact Hs).
  destruct st; cbn [observe iceGatheringState]; try (apply IH; exact Hs).
  exfalso. apply H. now left.
Qed.

Lemma check_first_complete pre post : forall p,
  ~ In gathering_done pre ->
  check p (pre ++ gathering_done :: post)
  = (true, observe gathering_done (observe_all pre p), post).
Proof.
  induction pre as [|ev pre IH]; intros p H; [reflexivity|].
  cbn [app check observe_all fold_left].
  assert (Hs : ~ In gathering_done pre) by (intros F; apply H; now right).
  destruct ev as [st| | | |]; try (apply IH; exact Hs).
  destruct st; cbn [observe iceGatheringState]; try (apply IH; exact Hs).
  exfalso. apply H. now left.
Qed.

Lemma gathering_done_dec ev : {ev = gathering_done} + {ev <> gathering_done}.
Proof.
  destruct ev as [[| |]| | | |]; first [left; reflexivity | right; discriminate].
Qed.

Lemma first_completion s :
  In gathering_done s ->
  exists pre post, s = pre ++ gathering_done :: post /\ ~ In gathering_done pre.
Proof.
  induction s as [|ev s IH]; [contradiction|]. intros H.
  destruct (gathering_done_dec ev) as [->|Hne].
  - exists [], s. split; [reflexivity | intros []].
  - destruct H as [H|H]; [congruence|].
    destruct (IH H) as (pre & post & -> & Hpre).
    exists (ev :: pre), post. split; [reflexivity|].
    intros [F|F]; [congruence | contradiction].
Qed.

Lemma completion_dec s : {In gathering_done s} + {~ In gathering_done s}.
Proof.
  induction s as [|ev s [IH|IH]]; [right; intros [] | left; now right |].
  destruct (gathering_done_dec ev) as [->|Hne]; [left; now left|].
  right. intros [F|F]; [congruence | contradiction].
Qed.

Lemma waitForIceGathering_first_completion w pre post :
  iceGatheringState (pc w) <> ice_complete ->
  script w = pre ++ gathering_done :: post ->
  ~ In gathering_done pre ->
  waitForIceGathering w =
  Returned tt
    (set_transport (observe gathering_done (observe_all pre (pc w))) post w).
Proof.
  intros Hst Hs Hpre. unfold waitForIceGathering.
  rewrite Hs, check_first_complete by exact Hpre.
  destruct (iceGatheringState (pc w)); congruence.
Qed.

(** X1. While gathering is not complete, [waitForIceGathering] resumes at
    the first event that reports completion: the events before it have been
    observed, the events after it are left for later, and nothing but the
    transport has changed. *)
Theorem wait_resumes_at_first_completion (w : World) (pre post : list pc_event) :
  iceGatheringState (pc w) <> ice_complete ->
  script w = pre ++ gathering_done :: post ->
  ~ In gathering_done pre ->
  waitForIceGathering w =
  Returned tt
    (set_transport (observe gathering_done (observe_all pre (pc w))) post w).
Proof. apply waitForIceGathering_first_completion. Qed.

Lemma wait_resumes_at_first_completion_witness :
  let w := set_transport (pc initial_world)
             [IceGatheringStateChange ice_gathering; gathering_done; Applied]
             initial_world in
  waitForIceGathering w =
  Returned tt
    (set_transport
       (observe gathering_done
          (observe_all [IceGatheringStateChange ice_gathering] (pc w)))
       [Applied] w).
Proof.
  apply (wait_resumes_at_first_completion
           (set_transport (pc initial_world)
              [IceGatheringStateChange ice_gathering; gathering_done; Applied]
              initial_world)
           [IceGatheringStateChange ice_gathering] [Applied]).
  - discriminate.
  - reflexivity.
  - cbn. intros [H|[]]. discriminate H.
Defined.

(** X2. [waitForIceGathering] never throws, and it returns exactly when
    gathering is already complete or the transport comes to report its
    completion; otherwise the handler stays suspended, all events
    consumed. *)
Theorem wait_returns_iff (w : World) :
  (forall e w', waitForIceGathering w <> Thrown e w') /\
  ((exists w', waitForIceGathering w = Returned tt w') <->
   iceGatheringState (pc w) = ice_complete \/ In gathering_done (script w)) /\
  (iceGatheringState (pc w) <> ice_complete ->
   ~ In gathering_done (script w) ->
   waitForIceGathering w =
   Pending (set_transport (observe_all (script w) (pc w)) [] w)).
Proof.
  split; [intros e w'; apply waitForIceGathering_never_throws|].
  assert (P : iceGatheringState (pc w) <> ice_complete ->
              ~ In gathering_done (script w) ->
              waitForIceGathering w =
              Pending (set_transport (observe_all (script w) (pc w)) [] w)).
  { intros Hst Hno. unfold waitForIceGathering.
    rewrite check_no_complete by exact Hno.
    destruct (iceGatheringState (pc w)); congruence. }
  split; [|exact P]. split.
  - intros [w' H].
    destruct (iceGatheringState (pc w)) eqn:E; auto; right;
      destruct (completion_dec (script w)) as [Hin|Hno]; auto;
      rewrite P in H by (congruence || exact Hno); discriminate H.
  - intros [Hc|Hin].
    + exists w. unfold waitForIceGathering. now rewrite Hc.
    + destruct (iceGatheringState (pc w)) eqn:E;
        [| | exists w; unfold waitForIceGathering; now rewrite E].
      all: destruct (first_completion _ Hin) as (pre & post & Hs & Hpre).
      all: eexists; apply (waitForIceGathering_first_completion w pre post);
           [congruence | exact Hs | exact Hpre].
Qed.

(** ** What the offer blob contains *)

Lemma observe_all_description evs : forall p d,
  localDescription p = Some d ->
  localDescription (observe_all evs p) = Some (last_description d evs).
Proof.
  induction evs as [|ev evs IH]; intros p d H; [exact H|].
  cbn [observe_all last_description fold_left].
  destruct ev; try (apply IH; exact H). apply IH. reflexivity.
Qed.

Lemma observe_all_closed evs : forall p,
  pcClosed (observe_all evs p) = pcClosed p.
Proof.
  induction evs as [|ev evs IH]; intros p; [reflexivity|].
  cbn [observe_all fold_left]. fold (observe_all evs (observe ev p)).
  rewrite IH. destruct ev; reflexivity.
Qed.

Ltac run_offer :=
  unfold createOffer, createDataChannelIfNeeded, pc_createDataChannel,
    pc_createOffer, pc_setLocalDescription;
  unfold try_catch, bind, gets, await, perform, update, modify, toast,
    console_error, setLocalOffer, update, perform, modify, throw, ret;
  cbn [comp pc script trace now emit set_comp set_transport].

(** X3. When the transport creates and applies the offer and then gathers
    candidates, the blob that [createOffer] writes is the serialization of
    the local description as last updated before gathering completed, and
    the events after the completion are left unconsumed. *)
Theorem offer_blob_is_gathered_description (w : World) (o : RTCSessionDescription)
    (evs rest : list pc_event) :
  pcClosed (pc w) = false ->
  iceGatheringState (pc w) <> ice_complete ->
  script w = Created o :: Applied :: evs ++ gathering_done :: rest ->
  ~ In gathering_done evs ->
  exists w',
    createOffer w = Returned tt w' /\
    localOffer (comp w') = encode (last_description o evs) /\
    localDescription (pc w') = Some (last_description o evs) /\
    iceGatheringState (pc w') = ice_complete /\
    script w' = rest.
Proof.
  intros Hclosed Hice Hscript Hevs.
  set (p1 := observe (LocalDescriptionChange o) (pc w)).
  assert (Hwait : forall w0, pc w0 = p1 -> script w0 = evs ++ gathering_done :: rest ->
            waitForIceGathering w0 =
            Returned tt
              (set_transport (observe gathering_done (observe_all evs p1)) rest w0)).
  { intros w0 Hp Hs. rewrite <- Hp.
    apply waitForIceGathering_first_completion;
      [rewrite Hp; exact Hice | exact Hs | exact Hevs]. }
  assert (Hd : localDescription (observe gathering_done (observe_all evs p1))
               = Some (last_description o evs)).
  { cbn [observe gathering_done localDescription].
    now apply observe_all_description. }
  run_offer.
  destruct (dataChannelRef (comp w)); [|rewrite Hclosed];
    cbn [comp pc script trace now emit set_comp set_transport];
    rewrite Hscript;
    cbn [settle created applied comp pc script trace now emit set_comp
         set_transport];
    (erewrite Hwait by reflexivity);
    eexists; (split; [reflexivity|]);
    cbn [comp pc script trace now emit set_comp set_transport with_localOffer
         localOffer];
    rewrite Hd; repeat split; reflexivity.
Qed.

Lemma offer_blob_is_gathered_description_witness :
  let o := {| type := offer; sdp := js "v=0" |} in
  let o' := {| type := offer; sdp := js "v=0 a=candidate" |} in
  let w := set_transport (pc initial_world)
             (Created o :: Applied
              :: [IceGatheringStateChange ice_gathering; LocalDescriptionChange o']
              ++ gathering_done :: [Applied]) initial_world in
  exists w',
    createOffer w = Returned tt w' /\
    localOffer (comp w') =
      encode (last_description o
                [IceGatheringStateChange ice_gathering; LocalDescriptionChange o']) /\
    localDescription (pc w') =
      Some (last_description o
              [IceGatheringStateChange ice_gathering; LocalDescriptionChange o']) /\
    iceGatheringState (pc w') = ice_complete /\
    script w' = [Applied].
Proof.
  intros o o' w.
  apply (offer_blob_is_gathered_description w o
           [IceGatheringStateChange ice_gathering; LocalDescriptionChange o']
           [Applied]).
  - reflexivity.
  - discriminate.
  - reflexivity.
  - cbn. intros [H|[H|[]]]; discriminate H.
Defined.

(** X4. On a connection whose gathering state already reads complete,
    [createOffer] does not wait: as soon as the offer is applied it writes
    the blob of the offer as created, and the later events of the transport,
    a further update of the description among them, are left unobserved. *)
Theorem offer_on_completed_gathering_does_not_wait (w : World)
    (o : RTCSessionDescription) (rest : list pc_event) :
  pcClosed (pc w) = false ->
  iceGatheringState (pc w) = ice_complete ->
  script w = Created o :: Applied :: rest ->
  exists w',
    createOffer w = Returned tt w' /\
    localOffer (comp w') = encode o /\
    script w' = rest.
Proof.
  intros Hclosed Hice Hscript.
  run_offer.
  destruct (dataChannelRef (comp w)); [|rewrite Hclosed];
    cbn [comp pc script trace now emit set_comp set_transport];
    rewrite Hscript;
    cbn [settle created applied comp pc script trace now emit set_comp
         set_transport];
    unfold waitForIceGathering;
    cbn [comp pc script trace now emit set_comp set_transport observe
         iceGatheringState];
    rewrite Hice; eexists; repeat split.
Qed.

Lemma offer_on_completed_gathering_does_not_wait_witness :
  let o := {| type := offer; sdp := js "v=0" |} in
  let o' := {| type := offer; sdp := js "v=0 a=candidate" |} in
  let w := set_transport
             {| iceGatheringState := ice_complete; connectionState := conn_new;
                localDescription := None; pcClosed := false |}
             [Created o; Applied; IceGatheringStateChange ice_gathering;
              LocalDescriptionChange o'; gathering_done] initial_world in
  exists w',
    createOffer w = Returned tt w' /\
    localOffer (comp w') = encode o /\
    script w' = [IceGatheringStateChange ice_gathering;
                 LocalDescriptionChange o'; gathering_done].
Proof.
  intros o o' w.
  apply (offer_on_completed_gathering_does_not_wait w o); reflexivity.
Defined.

(** ** Accepting an offer *)

Lemma check_keeps_description s : forall p,
  localDescription p <> None ->
  localDescription (snd (fst (check p s))) <> None.
Proof.
  induction s as [|ev s IH]; intros p H; [exact H|].
  cbn [check].
  assert (H' : localDescription (observe ev p) <> None)
    by (destruct ev; cbn; congruence).
  destruct ev; try (apply IH; exact H').
  destruct (iceGatheringState (observe (IceGatheringStateChange s0) p));
    try (apply IH; exact H'). exact H'.
Qed.

Lemma wait_keeps_description w :
  localDescription (pc w) <> None ->
  localDescription (pc (world_of (waitForIceGathering w))) <> None.
Proof.
  intros H. unfold waitForIceGathering.
  assert (C := check_keeps_description (script w) (pc w) H).
  destruct (iceGatheringState (pc w)); try exact H;
    destruct (check (pc w) (script w)) as [[[|] p] s]; exact C.
Qed.

Lemma unique_split {A} (a : A) l1 l2 pre post :
  ~ In a l1 -> ~ In a l2 ->
  l1 ++ a :: l2 = pre ++ a :: post -> pre = l1.
Proof.
  revert pre. induction l1 as [|x l1 IH]; intros pre H1 H2 H.
  - destruct pre as [|y pre]; [reflexivity|]. cbn in H.
    injection H as <- H. exfalso. apply H2. rewrite H. apply in_elt.
  - destruct pre as [|y pre]; cbn in H.
    + injection H as -> _. exfalso. apply H1. now left.
    + injection H as <- H. f_equal. apply IH; auto.
      intros F. apply H1. now right.
Qed.

Ltac run_accept :=
  unfold acceptOffer, pc_setRemoteDescription, pc_createAnswer,
    pc_setLocalDescription, JSON_parse;
  unfold try_catch, bind, gets, await, perform, update, modify, toast,
    console_error, setLocalAnswer, update, perform, modify, throw, ret;
  cbn [comp pc script trace now emit set_comp set_transport].

Ltac split_settle :=
  match goal with
  | |- context [settle created ?p ?s] =>
      let e := fresh "e" in let a := fresh "a" in
      let p1 := fresh "p" in let s1 := fresh "s" in
      destruct (settle created p s) as [[[[e|a]|] p1] s1]
  | |- context [settle applied ?p ?s] =>
      let e := fresh "e" in
      let p1 := fresh "p" in let s1 := fresh "s" in
      destruct (settle applied p s) as [[[[e|[]]|] p1] s1]
  end;
  cbn [comp pc script trace now emit set_comp set_transport world_of].

Ltac split_wait :=
  match goal with
  | |- context [waitForIceGathering ?x] =>
      let W := fresh "W" in
      let D := fresh "D" in
      assert (D := wait_keeps_description x);
      destruct (waitForIceGathering_frame x) as (Wcomp & Wtrace);
      destruct (waitForIceGathering x) as [[] w1 | e w1 | w1] eqn:W;
      [ apply waitForIceGathering_returns in W;
        destruct W as (Wice & _ & _)
      | exfalso; exact (waitForIceGathering_never_throws _ _ _ W)
      | ]
  end.

(** X5. Accepting an offer hands the parsed text to the transport before
    it asks for an answer, never creates a data channel or an offer of its
    own, and writes the answer blob only in a run that found candidate
    gathering complete; the blob is then the serialization of the local
    description.  Every other run leaves the answer blob as it was. *)
Theorem acceptOffer_order (w : World) :
  let w' := world_of (acceptOffer w) in
  exists new,
    trace w' = trace w ++ new /\
    (forall pre post, new = pre ++ CreateAnswer :: post ->
       exists d, JSON.parse (remoteOffer (comp w)) = Some d /\
                 pre = [SetRemoteDescription d]) /\
    ~ In CreateOffer new /\
    (forall l, ~ In (CreateDataChannel l) new) /\
    (localAnswer (comp w') = localAnswer (comp w) /\
     ~ In (Toast Text.Reponse_prete (Some Text.Renvoyez)) new
     \/
     acceptOffer w = Returned tt w' /\
     iceGatheringState (pc w') = ice_complete /\
     (exists d, localDescription (pc w') = Some d /\
                localAnswer (comp w') = encode d) /\
     exists d a,
       new = [SetRemoteDescription d; CreateAnswer; SetLocalDescription a;
              Toast Text.Reponse_prete (Some Text.Renvoyez)]).
Proof.
  run_accept.
  destruct (JSON.parse (remoteOffer (comp w))) as [d|] eqn:Hparse;
    cbn [comp pc script trace now emit set_comp set_transport world_of].
  all: repeat split_settle.
  all: try split_wait.
  all: cbn [comp pc script trace now emit set_comp set_transport world_of
            with_localAnswer localAnswer observe localDescription] in *.
  all: rewrite <- ?app_assoc; cbn [app].
  all: try (rewrite Wtrace, Wcomp; cbn [trace comp localAnswer]).
  all: eexists; split; [rewrite <- ?app_assoc; reflexivity|].
  all: split;
    [ intros pre post H;
      first
        [ exfalso; revert H; apply not_in_split; cbn; intuition discriminate
        | exists d; split; [reflexivity|];
          eapply (unique_split CreateAnswer [_] _ pre post);
          [ | | exact H ]; cbn; intuition discriminate ]
    |].
  all: split; [cbn; intuition discriminate|].
  all: split; [intros l; cbn; intuition discriminate|].
  all: try solve [left; split; [reflexivity | cbn; intuition discriminate]].
  all: right; repeat split; try reflexivity; try exact Wice.
  all: try solve [eexists _, _; reflexivity].
  all: destruct (localDescription (pc w1)) as [d1|] eqn:Hd;
    [ exists d1; split; reflexivity
    | exfalso; apply D; [cbn; discriminate | reflexivity] ].
Qed.

(** ** Errors of the negotiation *)

Lemma skipn_trace (tr new : list effect) :
  skipn (List.length tr) (tr ++ new) = new.
Proof. now rewrite skipn_app, Nat.sub_diag, skipn_all. Qed.

Ltac report_leaf :=
  cbn [comp pc script trace now emit set_comp set_transport world_of
       with_localAnswer with_localOffer with_dataChannelRef] in *;
  try exact I;
  try match goal with H : trace _ = _ |- _ => rewrite H end;
  rewrite <- ?app_assoc; cbn [app]; rewrite skipn_trace;
  first
    [ eexists [_; _; _]; left; reflexivity
    | eexists [_; _]; left; reflexivity
    | eexists [_]; left; reflexivity
    | eexists []; left; reflexivity
    | eexists [_; _; _]; right; eexists; reflexivity
    | eexists [_; _]; right; eexists; reflexivity
    | eexists [_]; right; eexists; reflexivity
    | eexists []; right; eexists; reflexivity ].

(** X6. The three negotiation handlers catch every error: none of them
    throws, whatever the pasted text and whatever the transport does, and a
    run that returns ends with its success notification or with the logged
    error followed by its error notification. *)
Theorem negotiation_errors_are_reported (w : World) :
  reports (Toast Text.Offre_prete (Some Text.Copiez))
          (Toast Text.Erreur (Some Text.Impossible)) createOffer w /\
  reports (Toast Text.Reponse_appliquee None)
          (Toast Text.Erreur (Some Text.Reponse_invalide)) applyAnswer w /\
  reports (Toast Text.Reponse_prete (Some Text.Renvoyez))
          (Toast Text.Erreur (Some Text.Offre_invalide)) acceptOffer w.
Proof.
  unfold reports, effects_of. repeat split.
  - run_offer.
    destruct (dataChannelRef (comp w)) as [ch|];
      [|destruct (pcClosed (pc w))];
      cbn [comp pc script trace now emit set_comp set_transport world_of].
    all: repeat split_settle.
    all: try split_wait.
    all: report_leaf.
  - unfold applyAnswer, pc_setRemoteDescription, JSON_parse.
    unfold try_catch, bind, gets, await, perform, update, modify, toast,
      console_error, perform, modify, throw, ret.
    cbn [comp pc script trace now emit set_comp set_transport].
    destruct (JSON.parse (remoteAnswer (comp w)));
      cbn [comp pc script trace now emit set_comp set_transport world_of].
    all: repeat split_settle.
    all: report_leaf.
  - run_accept.
    destruct (JSON.parse (remoteOffer (comp w)));
      cbn [comp pc script trace now emit set_comp set_transport world_of].
    all: repeat split_settle.
    all: try split_wait.
    all: report_leaf.
Qed.

(** ** The two blobs of a handshake *)

Lemma createOffer_ready w :
  In (Toast Text.Offre_prete (Some Text.Copiez)) (effects_of createOffer w) ->
  exists d,
    localDescription (pc (world_of (createOffer w))) = Some d /\
    localOffer (comp (world_of (createOffer w))) = encode d.
Proof.
  unfold effects_of. run_offer.
  destruct (dataChannelRef (comp w)) as [ch|];
    [|destruct (pcClosed (pc w))];
    cbn [comp pc script trace now emit set_comp set_transport world_of].
  all: repeat split_settle.
  all: try split_wait.
  all: cbn [comp pc script trace now emit set_comp set_transport world_of
            with_localOffer with_dataChannelRef localOffer observe
            localDescription] in *.
  all: try match goal with H : trace _ = _ |- _ => rewrite H end.
  all: rewrite <- ?app_assoc; cbn [app]; rewrite skipn_trace.
  all: intros Hin.
  all: try solve [exfalso; cbn in Hin; intuition discriminate].
  all: destruct (localDescription (pc w1)) as [d1|] eqn:Hd;
    [ exists d1; split; reflexivity
    | exfalso; apply D; [cbn; discriminate | reflexivity] ].
Qed.

Lemma acceptOffer_ready w :
  In (Toast Text.Reponse_prete (Some Text.Renvoyez)) (effects_of acceptOffer w) ->
  exists d,
    localDescription (pc (world_of (acceptOffer w))) = Some d /\
    localAnswer (comp (world_of (acceptOffer w))) = encode d.
Proof.
  unfold effects_of. run_accept.
  destruct (JSON.parse (remoteOffer (comp w)));
    cbn [comp pc script trace now emit set_comp set_transport world_of].
  all: repeat split_settle.
  all: try split_wait.
  all: cbn [comp pc script trace now emit set_comp set_transport world_of
            with_localAnswer localAnswer observe localDescription] in *.
  all: try match goal with H : trace _ = _ |- _ => rewrite H end.
  all: rewrite <- ?app_assoc; cbn [app]; rewrite skipn_trace.
  all: intros Hin.
  all: try solve [exfalso; cbn in Hin; intuition discriminate].
  all: destruct (localDescription (pc w1)) as [d1|] eqn:Hd;
    [ exists d1; split; reflexivity
    | exfalso; apply D; [cbn; discriminate | reflexivity] ].
Qed.

Lemma acceptOffer_first_effect g j :
  JSON.parse (remoteOffer (comp g)) = Some j ->
  exists tl, effects_of acceptOffer g = SetRemoteDescription j :: tl.
Proof.
  intros Hparse. unfold effects_of. run_accept. rewrite Hparse.
  cbn [comp pc script trace now emit set_comp set_transport world_of].
  repeat split_settle.
  all: try split_wait.
  all: cbn [comp pc script trace now emit set_comp set_transport world_of
            with_localAnswer localAnswer observe localDescription] in *.
  all: try match goal with H : trace _ = _ |- _ => rewrite H end.
  all: rewrite <- ?app_assoc; cbn [app]; rewrite skipn_trace.
  all: eexists; reflexivity.
Qed.

Lemma applyAnswer_first_effect g j :
  JSON.parse (remoteAnswer (comp g)) = Some j ->
  exists tl, effects_of applyAnswer g = SetRemoteDescription j :: tl.
Proof.
  intros Hparse. unfold effects_of. rewrite (applyAnswer_run g j Hparse).
  destruct (settle applied (pc g) (script g)) as [[[[e|[]]|] p] s];
    cbn [world_of trace emit set_transport]; rewrite <- ?app_assoc;
    cbn [app]; rewrite skipn_trace; eexists; reflexivity.
Qed.

(** X7. The blob of a successful [createOffer] is what the peer needs: it
    is the serialization of the host's local description, and a peer that
    pastes it and accepts the offer hands precisely that description to its
    own transport, before anything else. *)
Theorem offer_blob_reaches_responder (host guest : World) :
  In (Toast Text.Offre_prete (Some Text.Copiez)) (effects_of createOffer host) ->
  let blob := localOffer (comp (world_of (createOffer host))) in
  exists d tl,
    localDescription (pc (world_of (createOffer host))) = Some d /\
    blob = encode d /\
    effects_of (acceptRemoteOffer blob) guest = SetRemoteDescription (toJSON d) :: tl.
Proof.
  intros Hready blob.
  destruct (createOffer_ready host Hready) as (d & Hd & Hblob).
  fold blob in Hblob.
  destruct (acceptOffer_first_effect
              (set_comp (with_remoteOffer blob (comp guest)) guest) (toJSON d))
    as [tl Htl].
  { cbn [comp set_comp with_remoteOffer remoteOffer]. rewrite Hblob.
    apply parse_stringify. }
  exists d, tl. repeat split; first [assumption | exact Htl].
Qed.

Lemma offer_blob_reaches_responder_witness :
  let o := {| type := offer; sdp := js "v=0" |} in
  let host := set_transport (pc initial_world)
                [Created o; Applied; gathering_done] initial_world in
  let blob := localOffer (comp (world_of (createOffer host))) in
  exists d tl,
    localDescription (pc (world_of (createOffer host))) = Some d /\
    blob = encode d /\
    effects_of (acceptRemoteOffer blob) initial_world
    = SetRemoteDescription (toJSON d) :: tl.
Proof.
  intros o host.
  apply (offer_blob_reaches_responder host initial_world).
  cbn. right. right. right. left. reflexivity.
Defined.

(** X8. The blob of a successful [acceptOffer] is the serialization of the
    guest's local description, and the host that pastes it and applies the
    answer hands precisely that description to its own transport. *)
Theorem answer_blob_reaches_initiator (guest host : World) :
  In (Toast Text.Reponse_prete (Some Text.Renvoyez)) (effects_of acceptOffer guest) ->
  let blob := localAnswer (comp (world_of (acceptOffer guest))) in
  exists d tl,
    localDescription (pc (world_of (acceptOffer guest))) = Some d /\
    blob = encode d /\
    effects_of (applyRemoteAnswer blob) host = SetRemoteDescription (toJSON d) :: tl.
Proof.
  intros Hready blob.
  destruct (acceptOffer_ready guest Hready) as (d & Hd & Hblob).
  fold blob in Hblob.
  destruct (applyAnswer_first_effect
              (set_comp (with_remoteAnswer blob (comp host)) host) (toJSON d))
    as [tl Htl].
  { cbn [comp set_comp with_remoteAnswer remoteAnswer]. rewrite Hblob.
    apply parse_stringify. }
  exists d, tl. repeat split; first [assumption | exact Htl].
Qed.

Lemma answer_blob_reaches_initiator_witness :
  let a := {| type := answer; sdp := js "v=0" |} in
  let guest :=
    set_comp (with_remoteOffer (encode {| type := offer; sdp := js "v=0" |})
                initial_component)
      (set_transport (pc initial_world)
         [Applied; Created a; Applied; gathering_done] initial_world) in
  let blob := localAnswer (comp (world_of (acceptOffer guest))) in
  exists d tl,
    localDescription (pc (world_of (acceptOffer guest))) = Some d /\
    blob = encode d /\
    effects_of (applyRemoteAnswer blob) initial_world
    = SetRemoteDescription (toJSON d) :: tl.
Proof.
  intros a guest.
  apply (answer_blob_reaches_initiator guest initial_world).
  cbn. right. right. right. left. reflexivity.
Defined.

(** ** What each handler may touch *)

Section Preserves.
Variable Q : World -> Prop.
Hypothesis Q_transport : forall p s w, Q w -> Q (set_transport p s w).
Hypothesis Q_emit : forall e w, Q w -> Q (emit e w).

Lemma preserves_ret {A} (a : A) : preserves Q (ret a).
Proof. intros w H. exact H. Qed.

Lemma preserves_throw {A} e : preserves Q (@throw A e).
Proof. intros w H. exact H. Qed.

Lemma preserves_gets {A} (f : World -> A) : preserves Q (gets f).
Proof. intros w H. exact H. Qed.

Lemma preserves_bind {A B} (m : M A) (k : A -> M B) :
  preserves Q m -> (forall a, preserves Q (k a)) -> preserves Q (bind m k).
Proof.
  intros Hm Hk w H. unfold bind. specialize (Hm w H).
  destruct (m w) as [a w1 | e w1 | w1]; cbn in Hm; try exact Hm.
  now apply Hk.
Qed.

Lemma preserves_try {A} (m : M A) (h : error -> M A) :
  preserves Q m -> (forall e, preserves Q (h e)) -> preserves Q (try_catch m h).
Proof.
  intros Hm Hh w H. unfold try_catch. specialize (Hm w H).
  destruct (m w) as [a w1 | e w1 | w1]; cbn in Hm; try exact Hm.
  now apply Hh.
Qed.

Lemma preserves_perform e : preserves Q (perform e).
Proof. intros w H. now apply Q_emit. Qed.

Lemma preserves_update g :
  (forall w, Q w -> Q (set_comp (g (comp w)) w)) -> preserves Q (update g).
Proof. intros Hg w H. now apply Hg. Qed.

Lemma preserves_await {A} (pick : pc_event -> option (error + A)) :
  preserves Q (await pick).
Proof.
  intros w H. unfold await.
  destruct (settle pick (pc w) (script w)) as [[[[e|a]|] p] s];
    now apply Q_transport.
Qed.

Lemma preserves_wait : preserves Q waitForIceGathering.
Proof.
  intros w H. unfold waitForIceGathering.
  destruct (iceGatheringState (pc w)); try exact H;
    destruct (check (pc w) (script w)) as [[[|] p] s]; now apply Q_transport.
Qed.

Lemma preserves_applied d :
  preserves Q (modify (fun w =>
    set_transport (observe (LocalDescriptionChange d) (pc w)) (script w) w)).
Proof. intros w H. now apply Q_transport. Qed.

Lemma preserves_send ch f : preserves Q (send ch f).
Proof.
  unfold send. destruct (is_open ch);
    [apply preserves_perform | apply preserves_throw].
Qed.

Lemma preserves_send_chunks ch buf fuel : forall i,
  preserves Q (send_chunks fuel ch buf i).
Proof.
  induction fuel as [|f IH]; intros i; cbn [send_chunks].
  - apply preserves_ret.
  - destruct (i <? List.length buf); [|apply preserves_ret].
    apply preserves_bind; [apply preserves_send|intros _].
    apply preserves_bind; [apply preserves_ret|intros _]. apply IH.
Qed.

End Preserves.

Ltac unfold_handlers :=
  unfold createOffer, applyAnswer, acceptOffer, sendChat, sendFile, onopen,
    onmessage, onconnectionstatechange, ondatachannel,
    createDataChannelIfNeeded, pc_createDataChannel, pc_createOffer,
    pc_createAnswer, pc_setLocalDescription, pc_setRemoteDescription,
    JSON_parse, prop, toast, console_error, Date_now,
    setLocalOffer, setLocalAnswer, setRemoteAnswer, setRemoteOffer,
    setConnected, setOutgoingText, setMessages.

Ltac preserve_step Ht He :=
  first
    [ apply (preserves_bind _); [|intro]
    | apply (preserves_try _); [|intro]
    | apply preserves_ret
    | apply preserves_throw
    | apply preserves_gets
    | apply (preserves_perform _ He)
    | apply (preserves_await _ Ht)
    | apply (preserves_wait _ Ht)
    | apply (preserves_applied _ Ht)
    | apply (preserves_send _ He)
    | apply (preserves_send_chunks _ He)
    | (apply preserves_update; let H := fresh in intros ? H; exact H)
    | match goal with
      | |- preserves _ (match ?x with _ => _ end) => destruct x
      | |- preserves _ (if ?x then _ else _) => destruct x
      end ].

Lemma keeps_of_preserves {X A} (f : World -> X) (m : M A) :
  (forall x, preserves (fun w => f w = x) m) ->
  forall w, f (world_of (m w)) = f w.
Proof. intros H w. exact (H (f w) w eq_refl). Qed.

(** A part of the component's state that the handler in the goal does not
    write. *)
Ltac keeps_field f :=
  match goal with
  | |- forall w, _ (comp (world_of (?m w))) = _ =>
      apply (keeps_of_preserves (fun w => f (comp w)) m)
  end;
  intros x; unfold_handlers;
  repeat preserve_step
    (fun (p : RTCPeerConnection) (s : list pc_event) (w : World)
         (H : f (comp w) = x) => H)
    (fun (e : effect) (w : World) (H : f (comp w) = x) => H).

(** X9. Each piece of the component's state has its own writers.  The
    connection flag changes only on a connection state change of the
    transport, the inbound transfer only on an inbound message, the offer
    blob only by [createOffer], the answer blob only by [acceptOffer], and
    the log only by [sendChat] and by an inbound message. *)
Theorem state_has_single_writers (e : event) (w : World) :
  let w' := world_of (handle e w) in
  (e <> connection_state_change -> connected (comp w') = connected (comp w)) /\
  ((forall data, e <> channel_message data) ->
   sendingRef (comp w') = sendingRef (comp w)) /\
  (e <> click_createOffer -> localOffer (comp w') = localOffer (comp w)) /\
  (e <> click_acceptOffer -> localAnswer (comp w') = localAnswer (comp w)) /\
  (e <> click_sendChat -> (forall data, e <> channel_message data) ->
   messages (comp w') = messages (comp w)).
Proof.
  cbn zeta. repeat split.
  - intros Hne. revert w.
    destruct e; try congruence; cbn [handle]; keeps_field connected.
  - intros Hne. revert w.
    destruct e; try (now elim (Hne data)); cbn [handle];
      keeps_field sendingRef.
  - intros Hne. revert w.
    destruct e; try congruence; cbn [handle]; keeps_field localOffer.
  - intros Hne. revert w.
    destruct e; try congruence; cbn [handle]; keeps_field localAnswer.
  - intros Hne Hne'. revert w.
    destruct e; try congruence; try (now elim (Hne' data)); cbn [handle];
      keeps_field messages.
Qed.

(** ** The data channel *)

Section EmitsOnly.
Variable P : effect -> Prop.

Lemma emits_only_same {A} (m : M A) :
  (forall w, trace (world_of (m w)) = trace w) -> emits_only P m.
Proof. intros H w. exists []. split; [now rewrite H, app_nil_r | constructor]. Qed.

Lemma emits_only_ret {A} (a : A) : emits_only P (ret a).
Proof. now apply emits_only_same. Qed.

Lemma emits_only_throw {A} e : emits_only P (@throw A e).
Proof. now apply emits_only_same. Qed.

Lemma emits_only_gets {A} (f : World -> A) : emits_only P (gets f).
Proof. now apply emits_only_same. Qed.

Lemma emits_only_update g : emits_only P (update g).
Proof. now apply emits_only_same. Qed.

Lemma emits_only_bind {A B} (m : M A) (k : A -> M B) :
  emits_only P m -> (forall a, emits_only P (k a)) -> emits_only P (bind m k).
Proof.
  intros Hm Hk w. unfold bind. destruct (Hm w) as (n1 & H1 & F1).
  destruct (m w) as [a w1 | e w1 | w1]; cbn in H1.
  - destruct (Hk a w1) as (n2 & H2 & F2). exists (n1 ++ n2).
    split; [now rewrite H2, H1, app_assoc | now apply Forall_app].
  - now exists n1.
  - now exists n1.
Qed.

Lemma emits_only_try {A} (m : M A) (h : error -> M A) :
  emits_only P m -> (forall e, emits_only P (h e)) -> emits_only P (try_catch m h).
Proof.
  intros Hm Hh w. unfold try_catch. destruct (Hm w) as (n1 & H1 & F1).
  destruct (m w) as [a w1 | e w1 | w1]; cbn in H1.
  - now exists n1.
  - destruct (Hh e w1) as (n2 & H2 & F2). exists (n1 ++ n2).
    split; [now rewrite H2, H1, app_assoc | now apply Forall_app].
  - now exists n1.
Qed.

Lemma emits_only_perform e : P e -> emits_only P (perform e).
Proof. intros H w. exists [e]. split; [reflexivity | now constructor]. Qed.

Lemma emits_only_await {A} (pick : pc_event -> option (error + A)) :
  emits_only P (await pick).
Proof.
  apply emits_only_same. intros w. unfold await.
  destruct (settle pick (pc w) (script w)) as [[[[e|a]|] p] s]; reflexivity.
Qed.

Lemma emits_only_wait : emits_only P waitForIceGathering.
Proof.
  apply emits_only_same. intros w. apply waitForIceGathering_frame.
Qed.

Lemma emits_only_send ch f : P (Send f) -> emits_only P (send ch f).
Proof.
  intros H. unfold send. destruct (is_open ch);
    [now apply emits_only_perform | apply emits_only_throw].
Qed.

Lemma emits_only_send_chunks ch buf fuel :
  (forall f, P (Send f)) ->
  forall i, emits_only P (send_chunks fuel ch buf i).
Proof.
  intros H. induction fuel as [|f IH]; intros i; cbn [send_chunks].
  - apply emits_only_ret.
  - destruct (i <? List.length buf); [|apply emits_only_ret].
    apply emits_only_bind; [now apply emits_only_send|intros _].
    apply emits_only_bind; [apply emits_only_ret|intros _]. apply IH.
Qed.

End EmitsOnly.

Lemma emits_only_effects {A} P (m : M A) w :
  emits_only P m -> Forall P (effects_of m w).
Proof.
  intros H. destruct (H w) as (new & Ht & F).
  unfold effects_of. now rewrite Ht, skipn_trace.
Qed.

Ltac emit_step :=
  first
    [ apply emits_only_bind; [|intro]
    | apply emits_only_try; [|intro]
    | apply emits_only_ret
    | apply emits_only_throw
    | apply emits_only_gets
    | apply emits_only_update
    | apply emits_only_await
    | apply emits_only_wait
    | (apply emits_only_perform; cbn; solve [auto | tauto | discriminate])
    | (apply emits_only_send; cbn; solve [auto | tauto | discriminate])
    | (apply emits_only_send_chunks; intro; cbn;
       solve [auto | tauto | discriminate])
    | (apply emits_only_same; intro; reflexivity)
    | match goal with
      | |- emits_only _ (match ?x with _ => _ end) => destruct x
      | |- emits_only _ (if ?x then _ else _) => destruct x
      end ].

Lemma createOffer_keeps_channel w :
  has_channel w ->
  Forall (fun x => ~ creates_channel x) (effects_of createOffer w).
Proof.
  unfold has_channel, effects_of. intros Hch. run_offer.
  destruct (dataChannelRef (comp w)) as [ch|]; [|congruence].
  cbn [comp pc script trace now emit set_comp set_transport world_of].
  repeat split_settle.
  all: try split_wait.
  all: cbn [comp pc script trace now emit set_comp set_transport world_of
            with_localOffer] in *.
  all: try match goal with H : trace _ = _ |- _ => rewrite H end.
  all: rewrite <- ?app_assoc; cbn [app]; rewrite skipn_trace.
  all: repeat constructor; cbn; tauto.
Qed.

Lemma has_channel_transport p s w : has_channel w -> has_channel (set_transport p s w).
Proof. intros H. exact H. Qed.

Lemma has_channel_emit e w : has_channel w -> has_channel (emit e w).
Proof. intros H. exact H. Qed.

Lemma handle_preserves_channel e : preserves has_channel (handle e).
Proof.
  destruct e; cbn [handle]; unfold_handlers;
    repeat first
      [ preserve_step has_channel_transport has_channel_emit
      | apply preserves_update; unfold has_channel; cbn;
        let H := fresh in intros ? H; first [exact H | discriminate] ].
Qed.

(** X10. Once the component holds a data channel it keeps holding one, and
    no handler creates another: in particular a further [createOffer]
    reuses the channel. *)
Theorem channel_is_created_once (e : event) (w : World) :
  has_channel w ->
  has_channel (world_of (handle e w)) /\
  Forall (fun x => ~ creates_channel x) (effects_of (handle e) w).
Proof.
  intros H. split; [now apply handle_preserves_channel|].
  destruct e; cbn [handle]; try (now apply createOffer_keeps_channel);
    apply emits_only_effects; unfold_handlers; repeat emit_step.
Qed.

Lemma channel_is_created_once_witness :
  has_channel connected_world /\
  has_channel (world_of (handle click_createOffer connected_world)) /\
  Forall (fun x => ~ creates_channel x)
         (effects_of (handle click_createOffer) connected_world).
Proof.
  split; [discriminate|].
  apply (channel_is_created_once click_createOffer connected_world).
  discriminate.
Defined.

(** X11. On a connection that is not closed, [createOffer] leaves the
    component with a data channel, whatever the transport does afterwards;
    on a closed connection without a channel it asks the transport for
    nothing and only reports the error. *)
Theorem createOffer_opens_channel (w : World) :
  (pcClosed (pc w) = false -> has_channel (world_of (createOffer w))) /\
  (pcClosed (pc w) = true -> dataChannelRef (comp w) = None ->
   createOffer w =
   Returned tt
     (emit (Toast Text.Erreur (Some Text.Impossible))
        (emit (ConsoleError InvalidStateError) w))).
Proof.
  split.
  - intros Hclosed. unfold has_channel. run_offer.
    destruct (dataChannelRef (comp w)) as [ch|] eqn:Href; [|rewrite Hclosed];
      cbn [comp pc script trace now emit set_comp set_transport world_of].
    all: repeat split_settle.
    all: try split_wait.
    all: cbn [comp pc script trace now emit set_comp set_transport world_of
              with_localOffer with_dataChannelRef dataChannelRef] in *.
    all: rewrite ?Wcomp; cbn [dataChannelRef with_dataChannelRef];
      congruence.
  - intros Hclosed Href. run_offer. rewrite Href, Hclosed. reflexivity.
Qed.

(** ** Inbound frames *)

Ltac run_onmessage :=
  unfold onmessage, try_catch, bind, JSON_parse, prop, gets, update, modify,
    setMessages, update, modify, Date_now, gets, toast, perform, modify,
    throw, ret.

Ltac split_onmessage :=
  match goal with
  | |- context [JSON.parse ?s] => destruct (JSON.parse s) as [[| | | | |]|]
  | |- context [JSON.lookup ?k ?ms] =>
      destruct (JSON.lookup k ms) as [[| | | | |]|]
  | |- context [str_eqb ?a ?b] => destruct (str_eqb a b)
  | |- context [match ?x with Some _ => _ | None => _ end] =>
      is_var x; destruct x
  end.

(** X12. No inbound frame, whatever it carries, makes the handler throw or
    stay suspended.  The handler never answers on the channel and never
    calls the transport: it can only notify and trigger a download, and of
    the component's state it changes at most the log and the inbound
    transfer. *)
Theorem inbound_frame_is_contained (data : MessageData) (w : World) :
  exists w',
    onmessage data w = Returned tt w' /\
    pc w' = pc w /\ script w' = script w /\ now w' = now w /\
    comp w' = with_messages (messages (comp w'))
                (with_sendingRef (sendingRef (comp w')) (comp w)) /\
    Forall local_effect (effects_of (onmessage data) w).
Proof.
  unfold effects_of.
  destruct w as [[ref lo ra ro la cn ms ot sr] p s tr t].
  destruct data as [text|bytes|bytes]; run_onmessage;
    repeat (cbn; try split_onmessage);
    eexists; (split; [reflexivity|]);
    cbn; repeat split;
    rewrite <- ?app_assoc;
    first [rewrite skipn_trace | rewrite skipn_all];
    repeat constructor.
Qed.

(** ** Transfers and chat on the same channel *)

Lemma receive_mixed mix : forall w entry,
  sendingRef (comp w) = Some entry ->
  receive bt_arraybuffer (List.map mixed_frame mix) w =
  Returned tt
    (set_comp
       (with_sendingRef
          (Some {| buffer := buffer entry ++ chunks_of mix; size := size entry |})
          (with_messages
             (messages (comp w)
              ++ List.map (fun s => peer_message (Some (JString s)) (now w))
                   (chats_of mix))
             (comp w))) w).
Proof.
  induction mix as [|[chunk|s] mix IH]; intros w entry H.
  - cbn. rewrite !app_nil_r.
    destruct w as [[ref lo ra ro la cn ms ot sr] p s tr t]. cbn in *.
    subst. destruct entry; reflexivity.
  - cbn [List.map receive mixed_frame deliver chunks_of chats_of]. unfold bind.
    rewrite onmessage_binary, H.
    erewrite IH by reflexivity. cbn. rewrite <- app_assoc. reflexivity.
  - cbn [List.map receive mixed_frame chunks_of chats_of]. unfold bind.
    rewrite onmessage_wire.
    erewrite IH by (cbn; exact H). cbn. rewrite <- app_assoc. reflexivity.
Qed.

Lemma receive_mixed_blob mix : forall w,
  receive bt_blob (List.map mixed_frame mix) w =
  Returned tt
    (set_comp
       (with_messages
          (messages (comp w)
           ++ List.map (fun s => peer_message (Some (JString s)) (now w))
                (chats_of mix))
          (comp w)) w).
Proof.
  induction mix as [|[chunk|s] mix IH]; intros w.
  - cbn. rewrite app_nil_r.
    destruct w as [[ref lo ra ro la cn ms ot sr] p s tr t]. reflexivity.
  - cbn [List.map receive mixed_frame deliver chunks_of chats_of]. unfold bind.
    cbn [onmessage ret]. apply IH.
  - cbn [List.map receive mixed_frame chunks_of chats_of]. unfold bind.
    change (deliver bt_blob (wire (chat s)))
      with (deliver bt_arraybuffer (wire (chat s))).
    rewrite onmessage_wire, IH. cbn. rewrite <- app_assoc. reflexivity.
Qed.

(** X13. Chat messages that arrive between the chunks of a transfer are
    logged in their order, each as an entry of the peer with the text that
    was sent, and the transfer still ends in one download at file-end.
    Where binary frames are delivered as [ArrayBuffer] the file is made of
    the chunks alone, in their order; where they are delivered as [Blob] it
    is empty. *)
Theorem chat_during_transfer (bt : BinaryType) (meta : FileMeta)
    (mix : list (list byte + jsstring)) (w : World) :
  exists w',
    receive bt
      (wire (file_meta meta) :: List.map mixed_frame mix ++ [wire file_end]) w =
    Returned tt w' /\
    messages (comp w') =
    messages (comp w)
    ++ List.map (fun s => {| from := peer; text := Some (JString s);
                             at_ := now w |})
         (chats_of mix) /\
    trace w' =
    trace w ++ [Toast Text.Fichier_recu (Some Text.Telechargement_lance);
                Download match bt with
                         | bt_arraybuffer => concat (chunks_of mix)
                         | bt_blob => []
                         end (now w)] /\
    sendingRef (comp w') = None /\
    same_elsewhere w w'.
Proof.
  destruct bt; eexists; (split; [
    cbn [receive]; unfold bind at 1;
    try change (deliver bt_blob (wire (file_meta meta)))
          with (deliver bt_arraybuffer (wire (file_meta meta)));
    rewrite onmessage_wire, receive_app;
    first [erewrite receive_mixed by reflexivity | rewrite receive_mixed_blob];
    cbn [receive]; unfold bind;
    try change (deliver bt_blob (wire file_end))
          with (deliver bt_arraybuffer (wire file_end));
    rewrite onmessage_wire; reflexivity |]);
  cbn; rewrite <- app_assoc; repeat split.
Qed.

(** X14. The receiver does not care how the bytes were cut nor what the
    file-meta announced: two transfers whose chunks put end to end give the
    same bytes end in the same state, with the same download. *)
Theorem chunking_is_transparent (meta meta' : FileMeta)
    (chunks chunks' : list (list byte)) (w : World) :
  concat chunks = concat chunks' ->
  receive bt_arraybuffer
    (wire (file_meta meta) :: List.map BinaryFrame chunks ++ [wire file_end]) w =
  receive bt_arraybuffer
    (wire (file_meta meta') :: List.map BinaryFrame chunks' ++ [wire file_end]) w.
Proof. intros H. rewrite !receive_transfer, H. reflexivity. Qed.

Lemma chunking_is_transparent_witness :
  let m1 := {| meta_name := js "a"; meta_size := 3; meta_type := [] |} in
  let m2 := {| meta_name := js "b"; meta_size := 0; meta_type := [] |} in
  receive bt_arraybuffer
    (wire (file_meta m1)
     :: List.map BinaryFrame [[Byte.x01]; [Byte.x02; Byte.x03]] ++ [wire file_end])
    initial_world =
  receive bt_arraybuffer
    (wire (file_meta m2)
     :: List.map BinaryFrame [[Byte.x01; Byte.x02]; []; [Byte.x03]] ++ [wire file_end])
    initial_world.
Proof.
  intros m1 m2.
  apply (chunking_is_transparent m1 m2 [[Byte.x01]; [Byte.x02; Byte.x03]]
           [[Byte.x01; Byte.x02]; []; [Byte.x03]] initial_world).
  reflexivity.
Defined.

(** X15. A file-end without an open transfer is ignored, so that a second
    file-end after a transfer changes nothing: one transfer, one
    download. *)
Theorem file_end_needs_open_transfer (meta : FileMeta)
    (chunks : list (list byte)) (w : World) :
  let closed_ := set_comp (with_sendingRef None (comp w)) w in
  onmessage (deliver bt_arraybuffer (wire file_end)) closed_ = Returned tt closed_ /\
  receive bt_arraybuffer
    (wire (file_meta meta) :: List.map BinaryFrame chunks
     ++ [wire file_end; wire file_end]) w =
  receive bt_arraybuffer
    (wire (file_meta meta) :: List.map BinaryFrame chunks ++ [wire file_end]) w.
Proof.
  intros closed_. split.
  - rewrite onmessage_wire. reflexivity.
  - change [wire file_end; wire file_end]
      with ([wire file_end] ++ [wire file_end]).
    rewrite app_assoc, app_comm_cons, receive_app, receive_transfer.
    cbn [receive]. unfold bind. rewrite onmessage_wire. reflexivity.
Qed.

(** X16. A message tagged file-meta whose [meta] member is missing or
    [null] does not open a transfer: reading its size throws inside the
    [try] block, the open transfer is left as it was, and the log grows by
    one entry, whose origin is the peer and whose text is the raw text of
    the frame. *)
Theorem file_meta_without_meta_is_chat (w : World) (data : jsstring)
    (ms : list (jsstring * json)) :
  JSON.parse data = Some (JObject ms) ->
  JSON.lookup (js "t") ms = Some (JString (js "file-meta")) ->
  JSON.lookup (js "meta") ms = None \/ JSON.lookup (js "meta") ms = Some JNull ->
  exists w',
    onmessage (DString data) w = Returned tt w' /\
    messages (comp w') =
    messages (comp w)
    ++ [{| from := peer; text := Some (JString data); at_ := now w |}] /\
    sendingRef (comp w') = sendingRef (comp w) /\
    trace w' = trace w /\
    same_elsewhere w w'.
Proof.
  intros Hparse Ht Hmeta. eexists. split.
  - run_onmessage. rewrite Hparse, Ht.
    cbn [is_str]. change (str_eqb (js "file-meta") (js "chat")) with false.
    change (str_eqb (js "file-meta") (js "file-meta")) with true. cbn iota.
    destruct Hmeta as [-> | ->]; reflexivity.
  - cbn. repeat split.
Qed.

Lemma file_meta_without_meta_is_chat_witness :
  let data := jsq "{'t':'file-meta','meta':null}" in
  exists w',
    onmessage (DString data) initial_world = Returned tt w' /\
    messages (comp w') =
    messages (comp initial_world)
    ++ [{| from := peer; text := Some (JString data);
           at_ := now initial_world |}] /\
    sendingRef (comp w') = sendingRef (comp initial_world) /\
    trace w' = trace initial_world /\
    same_elsewhere initial_world w'.
Proof.
  intros data.
  apply (file_meta_without_meta_is_chat initial_world data
           [(js "t", JString (js "file-meta")); (js "meta", JNull)]).
  - reflexivity.
  - reflexivity.
  - right. reflexivity.
Defined.

(** ** Sending *)

Lemma trim_start_nil s :
  trim_start s = [] <-> Forall (fun c => is_whitespace c = true) s.
Proof.
  induction s as [|c s IH]; cbn [trim_start].
  - split; [constructor | reflexivity].
  - destruct (is_whitespace c) eqn:E.
    + rewrite IH. split; [now constructor | now inversion 1].
    + split; [discriminate | inversion 1; congruence].
Qed.

Lemma blank_iff s :
  truthy (trim s) = false <-> Forall (fun c => is_whitespace c = true) s.
Proof.
  unfold trim. split.
  - intros H. apply trim_start_nil.
    destruct (trim_start s) as [|c r] eqn:E; [reflexivity|].
    exfalso.
    assert (Hc : is_whitespace c = false).
    { destruct s as [|x s]; [discriminate|]. revert E.
      clear H. revert c r. induction (x :: s) as [|y l IH]; [discriminate|].
      intros c r. cbn [trim_start]. destruct (is_whitespace y) eqn:Ey.
      - apply IH.
      - now intros [= <- _]. }
    assert (Hne : trim_start (rev (c :: r)) <> []).
    { intros F. apply trim_start_nil in F.
      rewrite Forall_forall in F.
      assert (Hin : In c (rev (c :: r))) by (apply -> in_rev; now left).
      specialize (F c Hin). congruence. }
    destruct (trim_start (rev (c :: r))) as [|d q]; [congruence|].
    cbn [rev] in H. destruct (rev q); discriminate H.
  - intros H. apply trim_start_nil in H. rewrite H. reflexivity.
Qed.

Lemma sendChat_closed w :
  (forall ch, dataChannelRef (comp w) = Some ch -> readyState ch <> open) ->
  sendChat w = Returned tt w.
Proof.
  intros H. unfold sendChat, bind, gets.
  destruct (dataChannelRef (comp w)) as [ch|]; [|reflexivity].
  specialize (H ch eq_refl). unfold is_open.
  destruct (readyState ch); try reflexivity. congruence.
Qed.

Lemma sendFile_closed w file :
  (forall ch, dataChannelRef (comp w) = Some ch -> readyState ch <> open) ->
  sendFile file w = Returned tt w.
Proof.
  intros H. unfold sendFile, bind, gets.
  destruct (dataChannelRef (comp w)) as [ch|]; [|now destruct file].
  specialize (H ch eq_refl). unfold is_open. destruct file; [|reflexivity].
  destruct (readyState ch); try reflexivity. congruence.
Qed.

(** X17. Without an open data channel nothing leaves the component: a chat
    message is neither sent nor logged and stays in the input field, and a
    picked file is dropped without a frame or a notification. *)
Theorem nothing_is_sent_unless_open (w : World) (file : option File) :
  (forall ch, dataChannelRef (comp w) = Some ch -> readyState ch <> open) ->
  sendChat w = Returned tt w /\ sendFile file w = Returned tt w.
Proof. intros H. split; [now apply sendChat_closed | now apply sendFile_closed]. Qed.

Lemma nothing_is_sent_unless_open_witness :
  sendChat initial_world = Returned tt initial_world /\
  sendFile (Some three_bytes) initial_world = Returned tt initial_world.
Proof.
  apply (nothing_is_sent_unless_open initial_world (Some three_bytes)).
  intros ch H. discriminate H.
Defined.

(** X18. Over an open channel a text is sent exactly when it has a
    character that is not white space.  A blank text is left in the input
    and nothing happens; any other text is sent and logged as typed, its
    surrounding white space included, and the input is cleared. *)
Theorem chat_is_sent_unless_blank (w : World) (ch : RTCDataChannel) (s : jsstring) :
  dataChannelRef (comp w) = Some ch ->
  readyState ch = open ->
  (Forall (fun c => is_whitespace c = true) s ->
   (setOutgoingText s ;; sendChat)%M w =
   Returned tt (set_comp (with_outgoingText s (comp w)) w)) /\
  (~ Forall (fun c => is_whitespace c = true) s ->
   (setOutgoingText s ;; sendChat)%M w =
   Returned tt
     (set_comp (with_outgoingText []
                  (with_messages (messages (comp w) ++ [my_message s (now w)])
                     (comp w)))
        (emit (Send (wire (chat s))) w))).
Proof.
  intros Href Hready. split; intros Hs.
  - assert (Hopen : is_open ch = true) by (unfold is_open; now rewrite Hready).
    apply blank_iff in Hs.
    unfold sendChat, setOutgoingText, bind, update, modify, gets.
    cbn -[trim truthy JSON.stringify]. rewrite Href, Hopen.
    cbn -[trim truthy JSON.stringify]. rewrite Hs. reflexivity.
  - apply (sendChat_run w ch s Href Hready).
    destruct (truthy (trim s)) eqn:E; [reflexivity|].
    apply blank_iff in E. contradiction.
Qed.

Lemma chat_is_sent_unless_blank_witness :
  let w := connected_world in
  (Forall (fun c => is_whitespace c = true) (js "  ") ->
   (setOutgoingText (js "  ") ;; sendChat)%M w =
   Returned tt (set_comp (with_outgoingText (js "  ") (comp w)) w)) /\
  (~ Forall (fun c => is_whitespace c = true) (js "  ") ->
   (setOutgoingText (js "  ") ;; sendChat)%M w =
   Returned tt
     (set_comp (with_outgoingText []
                  (with_messages (messages (comp w) ++ [my_message (js "  ") (now w)])
                     (comp w)))
        (emit (Send (wire (chat (js "  ")))) w))).
Proof.
  intros w. apply (chat_is_sent_unless_blank w open_channel (js "  "));
    reflexivity.
Defined.

(** X19. A chat message arrives as it was typed: the frame that [sendChat]
    puts on the channel makes the receiving component add one entry to its
    log, whose origin is the peer and whose text is exactly the sender's
    text, whatever characters it contains and however the channel delivers
    binary frames.  The receiver's transfer is left as it was and nothing
    is notified. *)
Theorem chat_round_trip (bt : BinaryType) (ws wr : World) (ch : RTCDataChannel)
    (s : jsstring) :
  dataChannelRef (comp ws) = Some ch ->
  readyState ch = open ->
  truthy (trim s) = true ->
  exists w',
    receive bt (sent (effects_of (setOutgoingText s ;; sendChat)%M ws)) wr =
    Returned tt w' /\
    messages (comp w') =
    messages (comp wr)
    ++ [{| from := peer; text := Some (JString s); at_ := now wr |}] /\
    sendingRef (comp w') = sendingRef (comp wr) /\
    trace w' = trace wr /\
    same_elsewhere wr w'.
Proof.
  intros Href Hready Hs. eexists. split.
  - erewrite effects_of_trace
      by (rewrite (sendChat_run ws ch s Href Hready Hs); reflexivity).
    cbn [sent receive]. unfold bind.
    change (deliver bt (wire (chat s)))
      with (deliver bt_arraybuffer (wire (chat s))).
    rewrite onmessage_wire. reflexivity.
  - cbn. repeat split.
Qed.

Lemma chat_round_trip_witness :
  let s := [34; 92; 10; 0xD83D; 0xDE00; 0xDC00; 233]%N in
  exists w',
    receive bt_blob
      (sent (effects_of (setOutgoingText s ;; sendChat)%M connected_world))
      initial_world = Returned tt w' /\
    messages (comp w') =
    messages (comp initial_world)
    ++ [{| from := peer; text := Some (JString s); at_ := now initial_world |}] /\
    sendingRef (comp w') = sendingRef (comp initial_world) /\
    trace w' = trace initial_world /\
    same_elsewhere initial_world w'.
Proof.
  intros s.
  apply (chat_round_trip bt_blob connected_world initial_world open_channel s);
    reflexivity.
Defined.

(** ** The layout of a file on the channel *)

Lemma nth_chunk buf : forall fuel i k,
  List.length buf - i <= fuel ->
  nth_error (chunks_from fuel buf i) k =
  if i + k * chunkSize <? List.length buf
  then Some (firstn chunkSize (skipn (i + k * chunkSize) buf))
  else None.
Proof.
  assert (Hc := chunkSize_pos).
  intros fuel. induction fuel as [|f IH]; intros i k Hf; cbn [chunks_from].
  - destruct (Nat.ltb_spec (i + k * chunkSize) (List.length buf)); [lia|].
    now destruct k.
  - destruct (Nat.ltb_spec i (List.length buf)) as [L|G].
    + destruct k as [|k]; cbn [nth_error].
      * rewrite Nat.mul_0_l, Nat.add_0_r.
        destruct (Nat.ltb_spec i (List.length buf)); [|lia].
        unfold slice. now replace (i + chunkSize - i) with chunkSize by lia.
      * rewrite IH by lia.
        now replace (i + chunkSize + k * chunkSize)
          with (i + S k * chunkSize) by lia.
    + destruct (Nat.ltb_spec (i + k * chunkSize) (List.length buf)); [lia|].
      now destruct k.
Qed.

Lemma chunk_count buf : forall fuel i,
  List.length buf - i <= fuel ->
  List.length (chunks_from fuel buf i)
  = (List.length buf - i + chunkSize - 1) / chunkSize.
Proof.
  assert (Hc := chunkSize_pos).
  intros fuel. induction fuel as [|f IH]; intros i Hf; cbn [chunks_from].
  - replace (List.length buf - i + chunkSize - 1) with (chunkSize - 1) by lia.
    rewrite Nat.div_small by lia. reflexivity.
  - destruct (Nat.ltb_spec i (List.length buf)) as [L|G].
    + cbn [List.length]. rewrite IH by lia.
      destruct (Nat.le_gt_cases chunkSize (List.length buf - i)) as [Hge|Hlt].
      * replace (List.length buf - i + chunkSize - 1)
          with ((List.length buf - (i + chunkSize) + chunkSize - 1) + 1 * chunkSize)
          by lia.
        rewrite Nat.div_add by lia. lia.
      * replace (List.length buf - (i + chunkSize) + chunkSize - 1)
          with (chunkSize - 1) by lia.
        rewrite (Nat.div_small (chunkSize - 1)) by lia.
        apply (Nat.div_unique _ _ 1 (List.length buf - i - 1)); lia.
    + replace (List.length buf - i + chunkSize - 1) with (chunkSize - 1) by lia.
      rewrite Nat.div_small by lia. reflexivity.
Qed.

(** X20. On the channel a file is its file-meta, then the slices of its
    bytes at the offsets 0, 16 KiB, 32 KiB and so on, each of 16 KiB but for
    a shorter last one, then file-end: as many binary frames as the byte
    length divided by 16 KiB, rounded up, none for an empty file.  The size
    announced in file-meta is the number of bytes that follow. *)
Theorem file_layout_on_channel (file : File) (ch : RTCDataChannel) (w : World) :
  dataChannelRef (comp w) = Some ch ->
  readyState ch = open ->
  let bytes := file_bytes file in
  exists chunks,
    sent (effects_of (sendFile (Some file)) w)
    = wire (file_meta (file_meta_of file))
      :: List.map BinaryFrame chunks ++ [wire file_end] /\
    List.length chunks = (List.length bytes + chunkSize - 1) / chunkSize /\
    (forall k, k < List.length chunks ->
       nth_error chunks k = Some (firstn chunkSize (skipn (k * chunkSize) bytes))) /\
    meta_size (file_meta_of file) = N.of_nat (List.length (concat chunks)).
Proof.
  intros Href Hready bytes.
  exists (chunks_from (List.length bytes) bytes 0). repeat split.
  - erewrite effects_of_trace
      by (rewrite (sendFile_run file ch w Href Hready); reflexivity).
    cbn [sent]. rewrite sent_app, sent_binary. reflexivity.
  - rewrite chunk_count by lia. now rewrite Nat.sub_0_r.
  - intros k Hk. apply nth_error_Some in Hk.
    rewrite nth_chunk in Hk |- * by lia. cbn [Nat.add] in *.
    destruct (k * chunkSize <? List.length bytes); [reflexivity | congruence].
  - rewrite concat_chunks_from by lia. reflexivity.
Qed.

Lemma file_layout_on_channel_witness :
  let bytes := file_bytes three_bytes in
  exists chunks,
    sent (effects_of (sendFile (Some three_bytes)) connected_world)
    = wire (file_meta (file_meta_of three_bytes))
      :: List.map BinaryFrame chunks ++ [wire file_end] /\
    List.length chunks = (List.length bytes + chunkSize - 1) / chunkSize /\
    (forall k, k < List.length chunks ->
       nth_error chunks k = Some (firstn chunkSize (skipn (k * chunkSize) bytes))) /\
    meta_size (file_meta_of three_bytes) = N.of_nat (List.length (concat chunks)).
Proof.
  apply (file_layout_on_channel three_bytes open_channel connected_world);
    reflexivity.
Defined.

(** ** One file after another, and frames delivered as blobs *)

(** X21. Two transfers received one after the other give two downloads, in
    order, and leave no transfer open.  Where binary frames are delivered
    as [ArrayBuffer] each file is made of its own chunks; where they are
    delivered as [Blob] both files are empty. *)
Theorem file_after_file (bt : BinaryType) (m1 m2 : FileMeta)
    (c1 c2 : list (list byte)) (w : World) :
  exists w',
    receive bt
      ((wire (file_meta m1) :: List.map BinaryFrame c1 ++ [wire file_end])
       ++ wire (file_meta m2) :: List.map BinaryFrame c2 ++ [wire file_end]) w =
    Returned tt w' /\
    trace w' =
    trace w ++ [Toast Text.Fichier_recu (Some Text.Telechargement_lance);
                Download match bt with
                         | bt_arraybuffer => concat c1
                         | bt_blob => []
                         end (now w);
                Toast Text.Fichier_recu (Some Text.Telechargement_lance);
                Download match bt with
                         | bt_arraybuffer => concat c2
                         | bt_blob => []
                         end (now w)] /\
    sendingRef (comp w') = None /\
    messages (comp w') = messages (comp w) /\
    same_elsewhere w w'.
Proof.
  destruct (receive_transfer_by_delivery bt m1 c1 w)
    as (w1 & Hrun1 & Htrace1 & Href1 & Hlog1 & Hrest1).
  destruct (receive_transfer_by_delivery bt m2 c2 w1)
    as (w2 & Hrun2 & Htrace2 & Href2 & Hlog2 & Hrest2).
  exists w2. rewrite receive_app, Hrun1.
  split; [exact Hrun2|].
  unfold same_elsewhere in *.
  destruct Hrest1 as (? & ? & Hnow & ? & ? & ? & ? & ? & ? & ?).
  destruct Hrest2 as (? & ? & ? & ? & ? & ? & ? & ? & ? & ?).
  rewrite Htrace2, Htrace1, Hnow, <- app_assoc.
  repeat split; congruence.
Qed.

(** X22. The handler takes a binary frame only as an [ArrayBuffer].  On a
    channel that delivers binary frames as blobs every chunk is dropped, and
    the file that file-end finalizes is empty, whatever was sent. *)
Theorem blob_chunks_are_dropped (file : File) (ch : RTCDataChannel) (ws wr : World) :
  dataChannelRef (comp ws) = Some ch ->
  readyState ch = open ->
  receive bt_blob (sent (effects_of (sendFile (Some file)) ws)) wr =
  Returned tt
    (set_comp (with_sendingRef None (comp wr))
       (emit (Download [] (now wr))
          (emit (Toast Text.Fichier_recu (Some Text.Telechargement_lance)) wr))).
Proof.
  intros Href Hready.
  erewrite effects_of_trace
    by (rewrite (sendFile_run file ch ws Href Hready); reflexivity).
  cbn [sent]. rewrite sent_app, sent_binary.
  cbn [sent receive]. unfold bind at 1.
  change (deliver bt_blob (wire (file_meta (file_meta_of file))))
    with (deliver bt_arraybuffer (wire (file_meta (file_meta_of file)))).
  rewrite onmessage_wire, receive_app, receive_blobs.
  cbn [receive]. unfold bind.
  change (deliver bt_blob (wire file_end))
    with (deliver bt_arraybuffer (wire file_end)).
  rewrite onmessage_wire. reflexivity.
Qed.

Lemma blob_chunks_are_dropped_witness :
  receive bt_blob (sent (effects_of (sendFile (Some three_bytes)) connected_world))
    initial_world =
  Returned tt
    (set_comp (with_sendingRef None (comp initial_world))
       (emit (Download [] (now initial_world))
          (emit (Toast Text.Fichier_recu (Some Text.Telechargement_lance))
             initial_world))).
Proof.
  apply (blob_chunks_are_dropped three_bytes open_channel connected_world
           initial_world); reflexivity.
Defined.
